(** * Verification of the history store of yd-gui (src/src/database.rs, src/src/video.rs)

    The SQLite file is modelled as two tables and their AUTOINCREMENT
    counters; each SQL statement issued by [Database] is a function on that
    store.  The engine may refuse any statement (I/O error, busy, constraint):
    this is an oracle [fails] on the statement and the store it runs against.
    A failing statement leaves the store untouched (SQLite statements are
    atomic).  Every [.await?] of the Rust code is the bind of the monad
    [Sql]. *)

From Stdlib Require Import ZArith NArith List String Bool Permutation Sorted Lia.
Import ListNotations.
Open Scope Z_scope.

(** ** Data model (src/src/video.rs) *)

Record VideoFormat := mkVideoFormat {
  container : string;
  width : string;
  height : string;
  fps : string
}.

Record VideoInfo := mkVideoInfo {
  video_id : string;
  title : string;
  author : string;
  duration_seconds : string;
  thumbnail : option string;
  video_formats : list VideoFormat;
  audio_available : bool
}.

(** [downloading] is an [Arc<AtomicBool>]; [Arc::new] allocates a cell that
    nothing else shares, so its only observable at construction time is the
    value it holds. *)
Record ManagedVideo := mkManagedVideo {
  mv_id : Z;
  video_info : VideoInfo;
  content_size : option N;
  downloading : bool
}.

(** [ManagedVideo::new] *)
Definition ManagedVideo_new (id : Z) (vi : VideoInfo) : ManagedVideo :=
  {| mv_id := id; video_info := vi; content_size := None; downloading := false |}.

(** [video_info.video_formats = ...] *)
Definition with_formats (vi : VideoInfo) (fs : list VideoFormat) : VideoInfo :=
  {| video_id := video_id vi; title := title vi; author := author vi;
     duration_seconds := duration_seconds vi; thumbnail := thumbnail vi;
     video_formats := fs; audio_available := audio_available vi |}.

(** [FetchOrd] *)
Inductive FetchOrd := GEQandASC | LEQandDESC.

(** ** The store *)

(** Modelled from the spec: the migrations (not under src/).  Section 4.1:
    a parent table [VIDEO_INFO] keyed by an auto-incrementing integer primary
    key, and a child table [VIDEO_FORMAT] with its own auto-incrementing key
    and an integer parent-reference column [video_info_id]; no cascading
    delete (Sections 3 and 4.6).  Rows are kept in rowid order, which is the
    order of a table scan. *)
Record InfoRow := mkInfoRow {
  r_id : Z;
  r_video_id : string;
  r_title : string;
  r_author : string;
  r_duration_seconds : string;
  r_thumbnail : option string;
  r_audio_available : bool
}.

Record FormatRow := mkFormatRow {
  f_id : Z;
  f_container : string;
  f_width : string;
  f_height : string;
  f_fps : string;
  f_video_info_id : Z
}.

Record Store := mkStore {
  tbl_video_info : list InfoRow;
  tbl_video_format : list FormatRow;
  seq_video_info : Z;   (** sqlite_sequence entry of VIDEO_INFO *)
  seq_video_format : Z  (** sqlite_sequence entry of VIDEO_FORMAT *)
}.

Definition empty_store : Store := mkStore [] [] 0 0.

Definition i32_min : Z := - 2 ^ 31.
Definition i32_max : Z := 2 ^ 31 - 1.

(** Largest key of a table (0 for an empty table). *)
Definition max_key (ks : list Z) : Z := fold_right Z.max 0 ks.

(** AUTOINCREMENT: one more than the largest key the table ever held. *)
Definition next_rowid (seq : Z) (ks : list Z) : Z := 1 + Z.max seq (max_key ks).

(** ** Statements issued by [Database] *)

Inductive Stmt :=
| Begin
| Commit
| InsertInfo (vi : VideoInfo)                 (* QUERY_INSERT_INFO *)
| InsertFormat (vf : VideoFormat) (id : Z)    (* QUERY_INSERT_FORMAT *)
| FetchOneInfo (id : Z)                       (* QUERY_FETCH_ONE_INFO *)
| FetchOneFormats (id : Z)                    (* QUERY_FETCH_ONE_FORMATS *)
| FetchChunkGEQ (id : Z) (n : N)              (* QUERY_FETCH_CHUNK_INFO_GEQ *)
| FetchChunkLEQ (id : Z) (n : N)              (* QUERY_FETCH_CHUNK_INFO_LEQ *)
| FetchChunkBottom (n : N)                    (* QUERY_FETCH_CHUNK_INFO_BOTTOM *)
| DeleteOne (id : Z)                          (* DELETE FROM VIDEO_INFO WHERE id = $1 *)
| DeleteAllRows.                              (* DELETE FROM VIDEO_INFO *)

(** [sqlx::Error], the variants this code can meet. *)
Inductive Error :=
| RowNotFound
| Database
| ColumnDecode (col : string).

Inductive result (A : Type) :=
| Ok (a : A)
| Err (e : Error).
Arguments Ok {A} a.
Arguments Err {A} e.

(** ** SQL semantics of the statements *)

(** The row that [QUERY_INSERT_INFO] writes, its parameters bound from
    [video_info]. *)
Definition info_row_of (id : Z) (vi : VideoInfo) : InfoRow :=
  {| r_id := id; r_video_id := video_id vi; r_title := title vi;
     r_author := author vi; r_duration_seconds := duration_seconds vi;
     r_thumbnail := thumbnail vi; r_audio_available := audio_available vi |}.

(** INSERT INTO VIDEO_INFO ... RETURNING id *)
Definition insert_info_row (st : Store) (vi : VideoInfo) : Z * Store :=
  let id := next_rowid (seq_video_info st) (map r_id (tbl_video_info st)) in
  (id, mkStore (tbl_video_info st ++ [info_row_of id vi]) (tbl_video_format st)
               id (seq_video_format st)).

(** INSERT INTO VIDEO_FORMAT ... *)
Definition insert_format_row (st : Store) (vf : VideoFormat) (id : Z) : Store :=
  let fid := next_rowid (seq_video_format st) (map f_id (tbl_video_format st)) in
  let row := {| f_id := fid; f_container := container vf; f_width := width vf;
                f_height := height vf; f_fps := fps vf; f_video_info_id := id |} in
  mkStore (tbl_video_info st) (tbl_video_format st ++ [row])
          (seq_video_info st) fid.

(** SELECT ... FROM VIDEO_INFO WHERE id = $1 (first row of the scan) *)
Definition select_one_info (st : Store) (id : Z) : option InfoRow :=
  find (fun r => r_id r =? id) (tbl_video_info st).

(** SELECT ... FROM VIDEO_FORMAT WHERE video_info_id = $1 (scan order) *)
Definition select_formats (st : Store) (id : Z) : list FormatRow :=
  filter (fun f => f_video_info_id f =? id) (tbl_video_format st).

(** ORDER BY id, by insertion into a sorted list. *)
Fixpoint insert_by (le : Z -> Z -> bool) (r : InfoRow) (l : list InfoRow)
  : list InfoRow :=
  match l with
  | [] => [r]
  | r' :: l' => if le (r_id r) (r_id r') then r :: l else r' :: insert_by le r l'
  end.

Definition order_by (le : Z -> Z -> bool) (l : list InfoRow) : list InfoRow :=
  fold_right (insert_by le) [] l.

(** LIMIT n *)
Definition limit {A} (n : N) (l : list A) : list A := firstn (N.to_nat n) l.

Definition query_chunk_geq (st : Store) (starting_id : Z) (n : N) : list InfoRow :=
  limit n (order_by Z.leb
             (filter (fun r => starting_id <=? r_id r) (tbl_video_info st))).

Definition query_chunk_leq (st : Store) (starting_id : Z) (n : N) : list InfoRow :=
  limit n (order_by Z.geb
             (filter (fun r => r_id r <=? starting_id) (tbl_video_info st))).

Definition query_chunk_bottom (st : Store) (n : N) : list InfoRow :=
  limit n (order_by Z.geb (tbl_video_info st)).

(** DELETE FROM VIDEO_INFO WHERE id = $1 / DELETE FROM VIDEO_INFO;
    the tables other than VIDEO_INFO and sqlite_sequence are untouched. *)
Definition delete_rows (st : Store) (p : InfoRow -> bool) : N * Store :=
  (N.of_nat (List.length (filter p (tbl_video_info st))),
   mkStore (filter (fun r => negb (p r)) (tbl_video_info st))
           (tbl_video_format st) (seq_video_info st) (seq_video_format st)).

(** ** Row decoding ([FromRow]) *)

(** [row.try_get::<i32>] *)
Definition decode_i32 (col : string) (z : Z) : result Z :=
  if (i32_min <=? z) && (z <=? i32_max) then Ok z else Err (ColumnDecode col).

(** [#[derive(FromRow)] VideoInfo], [video_formats] skipped (empty). *)
Definition video_info_from_row (r : InfoRow) : VideoInfo :=
  {| video_id := r_video_id r; title := r_title r; author := r_author r;
     duration_seconds := r_duration_seconds r; thumbnail := r_thumbnail r;
     video_formats := []; audio_available := r_audio_available r |}.

(** [#[derive(FromRow)] VideoFormat] *)
Definition video_format_from_row (f : FormatRow) : VideoFormat :=
  {| container := f_container f; width := f_width f; height := f_height f;
     fps := f_fps f |}.

(** [impl FromRow for IdAndInfo] *)
Definition id_and_info_from_row (r : InfoRow) : result (Z * VideoInfo) :=
  match decode_i32 "id"%string (r_id r) with
  | Ok id => Ok (id, video_info_from_row r)
  | Err e => Err e
  end.

(** [fetch_all] decodes every row and fails on the first bad one. *)
Fixpoint decode_all {A} (dec : InfoRow -> result A) (rows : list InfoRow)
  : result (list A) :=
  match rows with
  | [] => Ok []
  | r :: rs =>
      match dec r with
      | Err e => Err e
      | Ok a => match decode_all dec rs with
                | Err e => Err e
                | Ok l => Ok (a :: l)
                end
      end
  end.

(** ** The [Sql] monad: state of the executor, early return on [?] *)

Definition Sql (A : Type) := Store -> result A * Store.

Definition ret {A} (a : A) : Sql A := fun st => (Ok a, st).

Definition bind {A B} (m : Sql A) (k : A -> Sql B) : Sql B :=
  fun st => match m st with
            | (Ok a, st') => k a st'
            | (Err e, st') => (Err e, st')
            end.

Notation "x <- m ;; k" := (bind m (fun x => k))
  (at level 61, m at next level, right associativity).

(** ** [impl Database<Sqlite>] *)

Section Engine.

(** Whether the engine refuses a statement run against a given store. *)
Variable fails : Stmt -> Store -> bool.

(** Running one statement: a refused statement changes nothing. *)
Definition exec {A} (s : Stmt) (k : Sql A) : Sql A :=
  fun st => if fails s st then (Err Database, st) else k st.

(** [query_as(QUERY_FETCH_ONE_INFO).bind(id).fetch_one(&self.pool)] *)
Definition fetch_one_info (id : Z) : Sql VideoInfo :=
  exec (FetchOneInfo id) (fun st =>
    match select_one_info st id with
    | Some r => (Ok (video_info_from_row r), st)
    | None => (Err RowNotFound, st)
    end).

(** [query_as(QUERY_FETCH_ONE_FORMATS).bind(id).fetch_all(&self.pool)] *)
Definition fetch_formats (id : Z) : Sql (list VideoFormat) :=
  exec (FetchOneFormats id) (fun st =>
    (Ok (map video_format_from_row (select_formats st id)), st)).

(** [fetch_one] *)
Definition fetch_one (id : Z) : Sql ManagedVideo :=
  vi <- fetch_one_info id ;;
  fs <- fetch_formats id ;;
  ret (ManagedVideo_new id (with_formats vi fs)).

(** A chunk query decoded as [Vec<IdAndInfo>]. *)
Definition fetch_id_and_infos (s : Stmt) (q : Store -> list InfoRow)
  : Sql (list (Z * VideoInfo)) :=
  exec s (fun st => (decode_all id_and_info_from_row (q st), st)).

(** [for IdAndInfo(id, mut video_info) in id_and_infos { ... push }] *)
Fixpoint attach_formats (xs : list (Z * VideoInfo)) : Sql (list ManagedVideo) :=
  match xs with
  | [] => ret []
  | (id, vi) :: xs' =>
      fs <- fetch_formats id ;;
      mvs <- attach_formats xs' ;;
      ret (ManagedVideo_new id (with_formats vi fs) :: mvs)
  end.

(** [fetch_chunk_of] *)
Definition fetch_chunk_of (starting_id : Z) (num_entries : N) (ord : FetchOrd)
  : Sql (list ManagedVideo) :=
  id_and_infos <-
    (match ord with
     | GEQandASC =>
         fetch_id_and_infos (FetchChunkGEQ starting_id num_entries)
           (fun st => query_chunk_geq st starting_id num_entries)
     | LEQandDESC =>
         fetch_id_and_infos (FetchChunkLEQ starting_id num_entries)
           (fun st => query_chunk_leq st starting_id num_entries)
     end) ;;
  attach_formats id_and_infos.

(** [fetch_chunk] *)
Definition fetch_chunk (starting_id : Z) (ord : FetchOrd) : Sql (list ManagedVideo) :=
  fetch_chunk_of starting_id 20 ord.

(** [fetch_first_chunk_from_top] *)
Definition fetch_first_chunk_from_top : Sql (list ManagedVideo) :=
  fetch_chunk 1 GEQandASC.

(** [NUM_ENTRIES] of [fetch_first_chunk_from_bottom] *)
Definition NUM_ENTRIES : N := 20.

(** [fetch_first_chunk_from_bottom] *)
Definition fetch_first_chunk_from_bottom : Sql (list ManagedVideo) :=
  id_and_infos <-
    fetch_id_and_infos (FetchChunkBottom NUM_ENTRIES)
      (fun st => query_chunk_bottom st NUM_ENTRIES) ;;
  attach_formats id_and_infos.

(** [query_scalar(QUERY_INSERT_INFO)...fetch_one(&mut *transaction)] decoded
    as [i32]; the row is written before the id is decoded. *)
Definition insert_info (vi : VideoInfo) : Sql Z :=
  exec (InsertInfo vi) (fun st =>
    let '(rowid, st') := insert_info_row st vi in
    (decode_i32 "id"%string rowid, st')).

(** [query(QUERY_INSERT_FORMAT)...execute(&mut *transaction)] *)
Definition insert_format (vf : VideoFormat) (id : Z) : Sql unit :=
  exec (InsertFormat vf id) (fun st => (Ok tt, insert_format_row st vf id)).

(** [for video_format in &video_info.video_formats { ... }] *)
Fixpoint insert_formats (vfs : list VideoFormat) (id : Z) : Sql unit :=
  match vfs with
  | [] => ret tt
  | vf :: vfs' => _ <- insert_format vf id ;; insert_formats vfs' id
  end.

(** The per-record sequence inside the transaction, shared verbatim by
    [insert_video_info] and [insert_bulk_video_info]. *)
Definition insert_record (vi : VideoInfo) : Sql Z :=
  id <- insert_info vi ;;
  _ <- insert_formats (video_formats vi) id ;;
  ret id.

(** [self.pool.begin()]: the transaction works on a copy of the store. *)
Definition get_transaction (db : Store) : result Store :=
  if fails Begin db then Err Database else Ok db.

(** [transaction.commit()] *)
Definition commit (tx : Store) : result Store :=
  if fails Commit tx then Err Database else Ok tx.

(** [let mut transaction = self.get_transaction().await?; body;
    transaction.commit().await?]; an early return drops the
    [Transaction], which rolls it back. *)
Definition in_transaction {A} (body : Sql A) : Sql A :=
  fun db =>
    match get_transaction db with
    | Err e => (Err e, db)
    | Ok tx =>
        match body tx with
        | (Err e, _) => (Err e, db)
        | (Ok a, tx') =>
            match commit tx' with
            | Ok db' => (Ok a, db')
            | Err e => (Err e, db)
            end
        end
    end.

(** [insert_video_info] *)
Definition insert_video_info (vi : VideoInfo) : Sql Z :=
  in_transaction (insert_record vi).

(** [for video_info in video_infos { ...; res.push(id); }] *)
Fixpoint insert_bulk_loop (vis : list VideoInfo) : Sql (list Z) :=
  match vis with
  | [] => ret []
  | vi :: vis' =>
      id <- insert_record vi ;;
      ids <- insert_bulk_loop vis' ;;
      ret (id :: ids)
  end.

(** [insert_bulk_video_info] *)
Definition insert_bulk_video_info (vis : list VideoInfo) : Sql (list Z) :=
  in_transaction (insert_bulk_loop vis).

(** [delete_video_info]: [rows_affected()] *)
Definition delete_video_info (id : Z) : Sql N :=
  exec (DeleteOne id) (fun st =>
    let '(n, st') := delete_rows st (fun r => r_id r =? id) in (Ok n, st')).

(** [delete_all] *)
Definition delete_all : Sql N :=
  exec DeleteAllRows (fun st =>
    let '(n, st') := delete_rows st (fun _ => true) in (Ok n, st')).

End Engine.

(** An engine that runs every statement. *)
Definition no_fail : Stmt -> Store -> bool := fun _ _ => false.

(** ** Stores reached by the program *)

(** Keys are unique, in the range of [i32], at least 1, and no larger than
    the AUTOINCREMENT counters; every variant row refers to a key already
    handed out. *)
Definition wf (st : Store) : Prop :=
  NoDup (map r_id (tbl_video_info st)) /\
  Forall (fun r => 1 <= r_id r <= i32_max /\ r_id r <= seq_video_info st)
    (tbl_video_info st) /\
  Forall (fun f => f_video_info_id f <= seq_video_info st /\
                   f_id f <= seq_video_format st)
    (tbl_video_format st) /\
  0 <= seq_video_info st /\ 0 <= seq_video_format st.

(** ** Sample data, after the fixtures of the test module of database.rs *)

Definition webm : VideoFormat := mkVideoFormat "webm" "640" "480" "30".
Definition mp4 : VideoFormat := mkVideoFormat "mp4" "1280" "720" "60".

Definition test_video (vid title : string) (fs : list VideoFormat) (audio : bool)
  : VideoInfo :=
  mkVideoInfo vid title "Author" "1" None fs audio.

Definition test_videos : list VideoInfo :=
  [test_video "id1" "Video 1" [webm] true;
   test_video "id2" "Video 2" [] false;
   test_video "id3" "Video 3" [webm; mp4] true;
   test_video "id4" "Video 4" [] false;
   test_video "id5" "Video 5" [mp4] true].

(** A fresh file after [insert_bulk_video_info(&test_videos)]: ids 1 to 5. *)
Definition test_store : Store := Eval vm_compute in
  snd (insert_bulk_video_info no_fail test_videos empty_store).

(** Then [delete_video_info(5)]: the variant row of id 5 stays behind. *)
Definition test_store_deleted : Store := Eval vm_compute in
  snd (delete_video_info no_fail 5 test_store).

Definition test_new_video : VideoInfo := test_video "id6" "Video 6" [mp4; webm] true.

(** Then [insert_video_info(&test_new_video)], which gets id 6. *)
Definition test_store_inserted : Store := Eval vm_compute in
  snd (insert_video_info no_fail test_new_video test_store_deleted).

(** An engine that refuses to insert the parent row of the third record. *)
Definition fails_on_id3 : Stmt -> Store -> bool :=
  fun s _ => match s with
             | InsertInfo vi => String.eqb (video_id vi) "id3"
             | _ => false
             end.

(** ** General lemmas *)

Lemma max_key_ge : forall k ks, In k ks -> k <= max_key ks.
Proof.
  induction ks as [|k' ks IH]; simpl; intros Hin; [contradiction|].
  destruct Hin as [<-|Hin]; [lia|]. specialize (IH Hin). lia.
Qed.

Lemma max_key_nonneg : forall ks, 0 <= max_key ks.
Proof. induction ks; simpl; lia. Qed.

Lemma filter_all_true {A} (p : A -> bool) (l : list A) :
  (forall x, In x l -> p x = true) -> filter p l = l.
Proof.
  induction l as [|x l IH]; simpl; intros H; [reflexivity|].
  rewrite H by auto. f_equal. apply IH. auto.
Qed.

(** A transaction that does not commit leaves the store as it found it. *)
Lemma in_transaction_err {A} fails (body : Sql A) db e db' :
  in_transaction fails body db = (Err e, db') -> db' = db.
Proof.
  unfold in_transaction, get_transaction, commit.
  destruct (fails Begin db); [congruence|].
  destruct (body db) as [[a|e'] tx'].
  - destruct (fails Commit tx'); congruence.
  - congruence.
Qed.

(** Reading the variants of a chunk does not write. *)
Lemma attach_formats_store fails xs st r st' :
  attach_formats fails xs st = (r, st') -> st' = st.
Proof.
  revert st r st'.
  induction xs as [|[id vi] xs IH]; simpl; intros st r st' H.
  - unfold ret in H. congruence.
  - unfold bind, fetch_formats, exec in H.
    destruct (fails (FetchOneFormats id) st); [congruence|].
    destruct (attach_formats fails xs st) as [[mvs|e] st1] eqn:E;
      apply IH in E; unfold ret in H; congruence.
Qed.

(** The runtime-only fields of a [ManagedVideo] as [ManagedVideo::new] sets
    them. *)
Definition fresh_runtime (mv : ManagedVideo) : Prop :=
  content_size mv = None /\ downloading mv = false.

Lemma attach_formats_fresh fails xs st mvs st' :
  attach_formats fails xs st = (Ok mvs, st') -> Forall fresh_runtime mvs.
Proof.
  revert st mvs st'.
  induction xs as [|[id vi] xs IH]; simpl; intros st mvs st' H.
  - unfold ret in H. inversion H. constructor.
  - unfold bind, fetch_formats, exec in H.
    destruct (fails (FetchOneFormats id) st); [congruence|].
    destruct (attach_formats fails xs st) as [[mvs'|e] st1] eqn:E; [|congruence].
    unfold ret in H. inversion H; subst.
    constructor; [split; reflexivity | eapply IH; eauto].
Qed.

Lemma fetch_chunk_of_fresh fails sid n ord st mvs st' :
  fetch_chunk_of fails sid n ord st = (Ok mvs, st') -> Forall fresh_runtime mvs.
Proof.
  unfold fetch_chunk_of, bind, fetch_id_and_infos, exec.
  destruct ord; [destruct (fails (FetchChunkGEQ sid n) st)
                |destruct (fails (FetchChunkLEQ sid n) st)];
    try congruence;
    match goal with |- context [decode_all ?d ?q] => destruct (decode_all d q) end;
    try congruence; apply attach_formats_fresh.
Qed.

(** ** Claims *)

(** C3: whenever [insert_video_info] or [insert_bulk_video_info] returns an
    error, at whatever step it failed (begin, the parent insert, the decoding
    of its id, any variant insert, the commit), the store that later readers
    see is the store before the call: nothing of that call, and for a bulk
    insert nothing of the whole batch, is kept. *)
Theorem insert_failure_rolls_back : forall fails db vi vis,
  (forall e db', insert_video_info fails vi db = (Err e, db') -> db' = db) /\
  (forall e db', insert_bulk_video_info fails vis db = (Err e, db') -> db' = db).
Proof.
  intros fails db vi vis. split; intros e db'; apply in_transaction_err.
Qed.

(** C8: [delete_video_info] and [delete_all] only remove parent rows: the
    variant table is the same after the call, orphans included, and the parent
    rows left are among those before. *)
Theorem deletes_leave_variants : forall fails id st,
  tbl_video_format (snd (delete_video_info fails id st)) = tbl_video_format st /\
  incl (tbl_video_info (snd (delete_video_info fails id st))) (tbl_video_info st) /\
  tbl_video_format (snd (delete_all fails st)) = tbl_video_format st /\
  incl (tbl_video_info (snd (delete_all fails st))) (tbl_video_info st).
Proof.
  intros fails id st.
  unfold delete_video_info, delete_all, exec, delete_rows.
  destruct (fails (DeleteOne id) st), (fails DeleteAllRows st); simpl;
    repeat split; try reflexivity; try apply incl_refl;
    intros x Hx; apply filter_In in Hx; tauto.
Qed.

(** C9: [fetch_chunk] is [fetch_chunk_of] with 20 entries,
    [fetch_first_chunk_from_top] is [fetch_chunk_of 1 20 GEQandASC], and
    [fetch_first_chunk_from_bottom] (a query of its own, 20 entries) gives what
    [fetch_chunk_of maxId 20 LEQandDESC] gives, [maxId] the largest id in the
    store, whenever the engine treats both queries alike. *)
Theorem first_chunks_are_chunks : forall fails st,
  (forall sid ord, fetch_chunk fails sid ord st = fetch_chunk_of fails sid 20 ord st) /\
  fetch_first_chunk_from_top fails st = fetch_chunk_of fails 1 20 GEQandASC st /\
  (let maxId := max_key (map r_id (tbl_video_info st)) in
   fails (FetchChunkBottom 20) st = fails (FetchChunkLEQ maxId 20) st ->
   fetch_first_chunk_from_bottom fails st = fetch_chunk_of fails maxId 20 LEQandDESC st).
Proof.
  intros fails st. split; [reflexivity|]. split; [reflexivity|].
  intros maxId Hf.
  unfold fetch_first_chunk_from_bottom, fetch_chunk_of, bind, fetch_id_and_infos,
    exec, NUM_ENTRIES.
  rewrite Hf. unfold query_chunk_bottom, query_chunk_leq.
  rewrite (filter_all_true _ (tbl_video_info st)); [reflexivity|].
  intros r Hr. apply Z.leb_le. apply max_key_ge. apply in_map. exact Hr.
Qed.

(** C10: every [ManagedVideo] handed out by [fetch_one], [fetch_chunk_of]
    (hence [fetch_chunk] and [fetch_first_chunk_from_top]) and
    [fetch_first_chunk_from_bottom] has no size hint and a downloading flag
    that is false, whatever the store. *)
Theorem fetched_videos_fresh : forall fails st id sid n ord,
  (forall mv st', fetch_one fails id st = (Ok mv, st') -> fresh_runtime mv) /\
  (forall mvs st', fetch_chunk_of fails sid n ord st = (Ok mvs, st') ->
     Forall fresh_runtime mvs) /\
  (forall mvs st', fetch_first_chunk_from_bottom fails st = (Ok mvs, st') ->
     Forall fresh_runtime mvs).
Proof.
  intros fails st id sid n ord. split; [|split].
  - intros mv st'. unfold fetch_one, bind, fetch_one_info, fetch_formats, exec, ret.
    destruct (fails (FetchOneInfo id) st); [congruence|].
    destruct (select_one_info st id); [|congruence].
    destruct (fails (FetchOneFormats id) st); [congruence|].
    intros H. inversion H. split; reflexivity.
  - apply fetch_chunk_of_fresh.
  - intros mvs st'. unfold fetch_first_chunk_from_bottom, bind, fetch_id_and_infos, exec.
    destruct (fails (FetchChunkBottom NUM_ENTRIES) st); [congruence|].
    destruct (decode_all _ _); [|congruence]. apply attach_formats_fresh.
Qed.

(** ** Pagination *)

(** The [WHERE] bound of the chunk query chosen by [ord]. *)
Definition id_bound (starting_id : Z) (ord : FetchOrd) (r : InfoRow) : bool :=
  match ord with
  | GEQandASC => starting_id <=? r_id r
  | LEQandDESC => r_id r <=? starting_id
  end.

(** The [ORDER BY] of the chunk query chosen by [ord]. *)
Definition ord_le (ord : FetchOrd) : Z -> Z -> bool :=
  match ord with GEQandASC => Z.leb | LEQandDESC => Z.geb end.

(** The parent rows a chunk query may return. *)
Definition qualifying (st : Store) (starting_id : Z) (ord : FetchOrd) : list InfoRow :=
  filter (id_bound starting_id ord) (tbl_video_info st).

(** The [ManagedVideo] that the loop of [fetch_chunk_of] builds from a row. *)
Definition managed_of_row (st : Store) (r : InfoRow) : ManagedVideo :=
  ManagedVideo_new (r_id r)
    (with_formats (video_info_from_row r)
       (map video_format_from_row (select_formats st (r_id r)))).

Definition in_i32 (r : InfoRow) : Prop := i32_min <= r_id r <= i32_max.

Lemma insert_by_perm le r l : Permutation (insert_by le r l) (r :: l).
Proof.
  induction l as [|r' l IH]; simpl; [reflexivity|].
  destruct (le (r_id r) (r_id r')); [reflexivity|].
  rewrite IH. apply perm_swap.
Qed.

Lemma order_by_perm le l : Permutation (order_by le l) l.
Proof.
  induction l as [|r l IH]; simpl; [reflexivity|].
  rewrite insert_by_perm. now apply perm_skip.
Qed.

Lemma In_limit {A} n (x : A) l : In x (limit n l) -> In x l.
Proof.
  unfold limit. intros H. rewrite <- (firstn_skipn (N.to_nat n) l).
  apply in_or_app. now left.
Qed.

Lemma decode_all_in_range rows :
  Forall in_i32 rows ->
  decode_all id_and_info_from_row rows =
  Ok (map (fun r => (r_id r, video_info_from_row r)) rows).
Proof.
  induction 1 as [|r rows Hr _ IH]; simpl; [reflexivity|].
  unfold id_and_info_from_row, decode_i32, in_i32 in *.
  replace ((i32_min <=? r_id r) && (r_id r <=? i32_max)) with true
    by (symmetry; apply andb_true_iff; split; apply Z.leb_le; lia).
  now rewrite IH.
Qed.

Lemma attach_formats_no_fail st rows :
  attach_formats no_fail (map (fun r => (r_id r, video_info_from_row r)) rows) st =
  (Ok (map (managed_of_row st) rows), st).
Proof.
  induction rows as [|r rows IH]; [reflexivity|].
  cbn [map attach_formats]. unfold bind at 1, fetch_formats, exec, no_fail.
  cbn -[attach_formats]. unfold bind. fold no_fail. rewrite IH. reflexivity.
Qed.

(** On a running engine, a chunk is the rows of the query, each with its
    variants. *)
Lemma fetch_chunk_of_rows st sid n ord :
  Forall in_i32 (tbl_video_info st) ->
  fetch_chunk_of no_fail sid n ord st =
  (Ok (map (managed_of_row st) (limit n (order_by (ord_le ord) (qualifying st sid ord)))),
   st).
Proof.
  intros Hrange.
  assert (Hq : Forall in_i32 (limit n (order_by (ord_le ord) (qualifying st sid ord)))).
  { apply Forall_forall. intros r Hr.
    apply In_limit, (Permutation_in _ (order_by_perm _ _)) in Hr.
    unfold qualifying in Hr. apply filter_In in Hr.
    exact (proj1 (Forall_forall _ _) Hrange r (proj1 Hr)). }
  unfold fetch_chunk_of, bind, fetch_id_and_infos, exec, no_fail.
  destruct ord; simpl; rewrite decode_all_in_range by exact Hq;
    apply attach_formats_no_fail.
Qed.

(** [Some] of the ids of a chunk, [None] on an error. *)
Definition chunk_ids (fails : Stmt -> Store -> bool) (st : Store) (sid : Z) (n : N)
  (ord : FetchOrd) : option (list Z) :=
  match fst (fetch_chunk_of fails sid n ord st) with
  | Ok mvs => Some (map mv_id mvs)
  | Err _ => None
  end.

Lemma chunk_ids_rows st sid n ord :
  Forall in_i32 (tbl_video_info st) ->
  chunk_ids no_fail st sid n ord =
  Some (map r_id (limit n (order_by (ord_le ord) (qualifying st sid ord)))).
Proof.
  intros H. unfold chunk_ids. rewrite fetch_chunk_of_rows by exact H. simpl.
  rewrite map_map. reflexivity.
Qed.

Lemma wf_in_i32 st : wf st -> Forall in_i32 (tbl_video_info st).
Proof.
  intros (_ & H & _). eapply Forall_impl; [|exact H].
  unfold in_i32, i32_min. intros r [[H1 H2] _]. lia.
Qed.

(** C2: on a store whose parent rows have the ids 1, 2, 3, 4, 5, whatever
    their contents and whatever the variant table, the six chunks of the
    example of [fetch_chunk_of] have the ids the spec lists. *)
Theorem fetch_chunk_of_five_rows : forall st,
  map r_id (tbl_video_info st) = [1; 2; 3; 4; 5] ->
  chunk_ids no_fail st 1 5 GEQandASC = Some [1; 2; 3; 4; 5] /\
  chunk_ids no_fail st 1 5 LEQandDESC = Some [1] /\
  chunk_ids no_fail st 5 5 GEQandASC = Some [5] /\
  chunk_ids no_fail st 5 5 LEQandDESC = Some [5; 4; 3; 2; 1] /\
  chunk_ids no_fail st 3 5 GEQandASC = Some [3; 4; 5] /\
  chunk_ids no_fail st 3 5 LEQandDESC = Some [3; 2; 1].
Proof.
  intros st H.
  assert (Hr : Forall in_i32 (tbl_video_info st)).
  { apply Forall_forall. intros r Hin. apply (in_map r_id) in Hin.
    rewrite H in Hin. unfold in_i32, i32_min, i32_max.
    simpl in Hin. intuition lia. }
  rewrite !chunk_ids_rows by exact Hr.
  unfold qualifying. destruct st as [t fs s1 s2]. simpl in *.
  destruct t as [|r1 [|r2 [|r3 [|r4 [|r5 [|r6 t]]]]]]; try discriminate.
  destruct r1 as [i1 ? ? ? ? ? ?], r2 as [i2 ? ? ? ? ? ?], r3 as [i3 ? ? ? ? ? ?],
    r4 as [i4 ? ? ? ? ? ?], r5 as [i5 ? ? ? ? ? ?].
  simpl in H. injection H as -> -> -> -> ->.
  repeat split; reflexivity.
Qed.

(** C7: on a running engine and a store the program can reach,
    [fetch_chunk_of] succeeds with at most [num_entries] records; when no more
    than [num_entries] rows satisfy the id bound, the records are exactly
    those rows (each with its variants), in some order, without padding. *)
Theorem fetch_chunk_of_short_page : forall st sid n ord,
  wf st ->
  exists mvs,
    fetch_chunk_of no_fail sid n ord st = (Ok mvs, st) /\
    (List.length mvs <= N.to_nat n)%nat /\
    ((List.length (qualifying st sid ord) <= N.to_nat n)%nat ->
     Permutation mvs (map (managed_of_row st) (qualifying st sid ord))).
Proof.
  intros st sid n ord Hwf.
  eexists. split; [apply fetch_chunk_of_rows, wf_in_i32, Hwf|]. split.
  - rewrite length_map. apply firstn_le_length.
  - intros Hlen. unfold limit. rewrite firstn_all2.
    + apply Permutation_map, order_by_perm.
    + rewrite (Permutation_length (order_by_perm _ _)). exact Hlen.
Qed.

(** ** Lookup and delete by id *)

(** Some parent row has the key [id]. *)
Definition has_row (st : Store) (id : Z) : Prop :=
  exists r, In r (tbl_video_info st) /\ r_id r = id.

Lemma select_one_info_None st id :
  select_one_info st id = None <-> ~ has_row st id.
Proof.
  unfold select_one_info, has_row. split.
  - intros Hf [r [Hin Hid]]. apply (find_none _ _ Hf) in Hin.
    rewrite Hid, Z.eqb_refl in Hin. discriminate.
  - intros Hno. destruct (find _ _) as [r|] eqn:E; [|reflexivity].
    apply find_some in E. destruct E as [Hin Hid]. apply Z.eqb_eq in Hid.
    exfalso. apply Hno. eauto.
Qed.

Lemma filter_all_false {A} (p : A -> bool) (l : list A) :
  (forall x, In x l -> p x = false) -> filter p l = [].
Proof.
  induction l as [|x l IH]; simpl; intros H; [reflexivity|].
  rewrite H by auto. apply IH. auto.
Qed.

Lemma count_unique_key (l : list InfoRow) id :
  NoDup (map r_id l) -> (exists r, In r l /\ r_id r = id) ->
  List.length (filter (fun r => r_id r =? id) l) = 1%nat.
Proof.
  induction l as [|r l IH]; simpl; intros Hnd Hex;
    [destruct Hex as [? [[] _]]|].
  apply NoDup_cons_iff in Hnd. destruct Hnd as [Hnotin Hnd].
  destruct (Z.eqb_spec (r_id r) id) as [Heq|Hne].
  - simpl. f_equal. apply length_zero_iff_nil, filter_all_false.
    intros x Hx. apply Z.eqb_neq. intros Hx'. apply Hnotin.
    rewrite Heq, <- Hx'. now apply in_map.
  - apply IH; [exact Hnd|]. destruct Hex as [x [[<-|Hx] Hid]]; [contradiction|eauto].
Qed.

(** C6: [fetch_one] reports [RowNotFound] exactly when no parent row has the
    id (the engine running the parent query); when one has it and the engine
    runs both queries, it succeeds, with the variants that refer to the id,
    none at all if no variant row does. *)
Theorem fetch_one_not_found : forall fails st id,
  fails (FetchOneInfo id) st = false ->
  (fst (fetch_one fails id st) = Err RowNotFound <-> ~ has_row st id) /\
  (has_row st id -> fails (FetchOneFormats id) st = false ->
   exists mv, fetch_one fails id st = (Ok mv, st) /\ mv_id mv = id /\
     video_formats (video_info mv) = map video_format_from_row (select_formats st id) /\
     (select_formats st id = [] -> video_formats (video_info mv) = [])).
Proof.
  intros fails st id Hinfo. split.
  - rewrite <- select_one_info_None.
    unfold fetch_one, bind, fetch_one_info, fetch_formats, exec, ret. rewrite Hinfo.
    destruct (select_one_info st id); [|tauto].
    destruct (fails (FetchOneFormats id) st); simpl; split; congruence.
  - intros Hrow Hfmt.
    destruct (select_one_info st id) as [r|] eqn:E.
    + unfold fetch_one, bind, fetch_one_info, fetch_formats, exec, ret.
      rewrite Hinfo, E, Hfmt. eexists. split; [reflexivity|].
      simpl. split; [reflexivity|]. split; [reflexivity|]. intros ->. reflexivity.
    + apply select_one_info_None in E. contradiction.
Qed.

(** C5: [delete_video_info] never reports [RowNotFound]; on a running engine
    and a store the program can reach, it returns 0 and changes nothing when
    no parent row has the id, and returns 1 when one has it, after which
    [fetch_one] of that id reports [RowNotFound]. *)
Theorem delete_video_info_count : forall fails st id,
  wf st -> fails (DeleteOne id) st = false ->
  fst (delete_video_info fails id st) <> Err RowNotFound /\
  (~ has_row st id -> delete_video_info fails id st = (Ok 0%N, st)) /\
  (has_row st id ->
   exists st', delete_video_info fails id st = (Ok 1%N, st') /\
     (fails (FetchOneInfo id) st' = false ->
      fst (fetch_one fails id st') = Err RowNotFound)).
Proof.
  intros fails st id Hwf Hdel.
  unfold delete_video_info, exec, delete_rows. rewrite Hdel. split; [|split].
  - simpl. discriminate.
  - intros Hno.
    assert (Hnone : forall r, In r (tbl_video_info st) -> (r_id r =? id) = false).
    { intros r Hin. apply Z.eqb_neq. intros Heq. apply Hno. now exists r. }
    rewrite (filter_all_true (fun r => negb (r_id r =? id)))
      by (intros r Hin; now rewrite Hnone).
    rewrite (filter_all_false _ _ Hnone). destruct st; reflexivity.
  - intros Hrow. eexists. split.
    + rewrite count_unique_key by (destruct Hwf; auto). reflexivity.
    + intros Hinfo. apply (fetch_one_not_found fails _ id Hinfo).
      intros [r [Hin Hid]]. simpl in Hin. apply filter_In in Hin.
      destruct Hin as [_ Hne]. rewrite Hid, Z.eqb_refl in Hne. discriminate.
Qed.

(** ** Inserting *)

(** The largest key VIDEO_INFO ever held: AUTOINCREMENT hands out the next. *)
Definition frontier (st : Store) : Z :=
  Z.max (seq_video_info st) (max_key (map r_id (tbl_video_info st))).

Lemma max_key_app l1 l2 : max_key (l1 ++ l2) = Z.max (max_key l1) (max_key l2).
Proof.
  induction l1 as [|k l1 IH]; simpl.
  - pose proof (max_key_nonneg l2). lia.
  - rewrite IH. lia.
Qed.

Lemma in_frontier st r : In r (tbl_video_info st) -> r_id r <= frontier st.
Proof.
  intros Hin. unfold frontier. apply (in_map r_id), max_key_ge in Hin. lia.
Qed.

Lemma insert_info_ok fails vi tx id tx1 :
  insert_info fails vi tx = (Ok id, tx1) ->
  id = 1 + frontier tx /\ id <= i32_max /\
  tbl_video_info tx1 = tbl_video_info tx ++ [info_row_of id vi] /\
  seq_video_info tx1 = id /\
  tbl_video_format tx1 = tbl_video_format tx /\
  seq_video_format tx1 = seq_video_format tx.
Proof.
  unfold insert_info, exec.
  destruct (fails (InsertInfo vi) tx); [congruence|].
  unfold insert_info_row, decode_i32.
  destruct (_ && _) eqn:E; [|congruence].
  intros H. injection H as <- <-. apply andb_true_iff in E.
  destruct E as [_ E]. apply Z.leb_le in E.
  cbn [tbl_video_info seq_video_info tbl_video_format].
  unfold next_rowid, frontier in *. repeat split; try lia; exact E.
Qed.

Lemma insert_formats_ok fails vfs id tx tx2 :
  insert_formats fails vfs id tx = (Ok tt, tx2) ->
  tbl_video_info tx2 = tbl_video_info tx /\
  seq_video_info tx2 = seq_video_info tx /\
  exists extra, tbl_video_format tx2 = tbl_video_format tx ++ extra /\
    map video_format_from_row extra = vfs /\
    Forall (fun f => f_video_info_id f = id) extra.
Proof.
  revert tx tx2. induction vfs as [|vf vfs IH]; simpl; intros tx tx2 H.
  - unfold ret in H. inversion H; subst.
    split; [reflexivity|]. split; [reflexivity|].
    exists []. rewrite app_nil_r. repeat split. constructor.
  - unfold bind, insert_format, exec in H.
    destruct (fails (InsertFormat vf id) tx); [congruence|].
    apply IH in H. destruct H as (H1 & H2 & extra & H3 & H4 & H5).
    simpl in H1, H2, H3. split; [exact H1|]. split; [exact H2|].
    eexists. split; [rewrite H3, <- app_assoc; reflexivity|].
    split; [simpl; rewrite H4; destruct vf; reflexivity|].
    constructor; [reflexivity|exact H5].
Qed.

(** One record inside the transaction: its parent row is appended with the
    next key, and its variant rows after the existing ones. *)
Lemma insert_record_ok fails vi tx id tx' :
  insert_record fails vi tx = (Ok id, tx') ->
  id = 1 + frontier tx /\ id <= i32_max /\
  tbl_video_info tx' = tbl_video_info tx ++ [info_row_of id vi] /\
  seq_video_info tx' = id /\
  exists extra, tbl_video_format tx' = tbl_video_format tx ++ extra /\
    map video_format_from_row extra = video_formats vi /\
    Forall (fun f => f_video_info_id f = id) extra.
Proof.
  unfold insert_record, bind at 1.
  destruct (insert_info fails vi tx) as [[id1|e] tx1] eqn:E1; [|congruence].
  apply insert_info_ok in E1. destruct E1 as (Hid & Hmax & Hi & Hs & Hf & Hsf1).
  unfold bind. destruct (insert_formats fails _ id1 tx1) as [[[]|e] tx2] eqn:E2;
    [|congruence].
  apply insert_formats_ok in E2. destruct E2 as (Hi2 & Hs2 & extra & Hf2 & Hm & Hfa).
  unfold ret. intros H. inversion H; subst.
  split; [reflexivity|]. split; [exact Hmax|].
  rewrite Hi2, Hi, Hs2, Hs, Hf2, Hf. split; [reflexivity|]. split; [reflexivity|].
  eauto.
Qed.

Lemma frontier_after_record fails vi tx id tx' :
  insert_record fails vi tx = (Ok id, tx') -> frontier tx' = id.
Proof.
  intros H. apply insert_record_ok in H. destruct H as (Hid & _ & Hi & Hs & _).
  unfold frontier. rewrite Hi, Hs, map_app, max_key_app. simpl.
  unfold frontier in Hid. pose proof (max_key_nonneg (map r_id (tbl_video_info tx))). lia.
Qed.

Lemma in_transaction_ok {A} fails (body : Sql A) db a db' :
  in_transaction fails body db = (Ok a, db') -> body db = (Ok a, db').
Proof.
  unfold in_transaction, get_transaction, commit.
  destruct (fails Begin db); [congruence|].
  destruct (body db) as [[a'|e'] tx'].
  - destruct (fails Commit tx'); congruence.
  - congruence.
Qed.

(** The parent columns stored for [id], decoded. *)
Definition parent_info (st : Store) (id : Z) : option VideoInfo :=
  option_map video_info_from_row (select_one_info st id).

Lemma find_app_skip (l1 l2 : list InfoRow) id :
  Forall (fun r => r_id r < id) l1 ->
  find (fun r => r_id r =? id) (l1 ++ l2) = find (fun r => r_id r =? id) l2.
Proof.
  induction 1 as [|r l1 Hr _ IH]; simpl; [reflexivity|].
  replace (r_id r =? id) with false by (symmetry; apply Z.eqb_neq; lia).
  exact IH.
Qed.

Lemma video_info_from_info_row id vi fs :
  with_formats (video_info_from_row (info_row_of id vi)) fs = with_formats vi fs.
Proof. destruct vi; reflexivity. Qed.

Lemma with_formats_own vi : with_formats vi (video_formats vi) = vi.
Proof. destruct vi; reflexivity. Qed.

Lemma with_formats_nil r : with_formats (video_info_from_row r) [] = video_info_from_row r.
Proof. reflexivity. Qed.

(** The loop of [insert_bulk_video_info]: one id per record, increasing, each
    the key of the parent row holding that record. *)
Lemma insert_bulk_loop_ok fails vis tx ids tx' :
  insert_bulk_loop fails vis tx = (Ok ids, tx') ->
  (List.length ids = List.length vis)%nat /\
  Forall (fun id => frontier tx < id) ids /\
  Sorted Z.lt ids /\
  (exists new, tbl_video_info tx' = tbl_video_info tx ++ new /\
     Forall (fun r => frontier tx < r_id r) new) /\
  Forall2 (fun id vi => parent_info tx' id = Some (with_formats vi [])) ids vis.
Proof.
  revert tx ids tx'. induction vis as [|vi vis IH]; simpl; intros tx ids tx' H.
  - unfold ret in H. inversion H; subst. repeat split; try constructor.
    exists []. rewrite app_nil_r. split; [reflexivity|constructor].
  - unfold bind at 1 in H.
    destruct (insert_record fails vi tx) as [[id|e] tx1] eqn:E1; [|congruence].
    unfold bind in H.
    destruct (insert_bulk_loop fails vis tx1) as [[ids'|e] tx2] eqn:E2; [|congruence].
    unfold ret in H. inversion H; subst ids tx2. clear H.
    pose proof (frontier_after_record _ _ _ _ _ E1) as Hfr.
    apply insert_record_ok in E1. destruct E1 as (Hid & _ & Hi1 & _ & _).
    apply IH in E2. destruct E2 as (Hlen & Hgt & Hsort & (new & Hnew & Hnewgt) & Hrel).
    rewrite Hfr in Hgt, Hnewgt.
    split; [simpl; congruence|].
    split; [constructor; [lia|]; eapply Forall_impl; [|exact Hgt]; simpl; lia|].
    split.
    { constructor; [exact Hsort|]. destruct ids' as [|i ids']; constructor.
      inversion Hgt; assumption. }
    split.
    { exists (info_row_of id vi :: new). rewrite Hnew, Hi1, <- app_assoc. split; [reflexivity|].
      constructor; [simpl; lia|]. eapply Forall_impl; [|exact Hnewgt]; simpl; lia. }
    constructor; [|exact Hrel].
    unfold parent_info, select_one_info. rewrite Hnew, Hi1, <- app_assoc.
    rewrite find_app_skip.
    + simpl. rewrite Z.eqb_refl. simpl. reflexivity.
    + apply Forall_forall. intros r Hr. apply in_frontier in Hr. lia.
Qed.

(** C4: when [insert_bulk_video_info] succeeds, it returns one id per input
    record, in strictly increasing order (the insertion order), the [i]-th id
    being the key of the parent row that holds the [i]-th record. *)
Theorem insert_bulk_ids : forall fails db vis ids db',
  insert_bulk_video_info fails vis db = (Ok ids, db') ->
  (List.length ids = List.length vis)%nat /\
  Sorted Z.lt ids /\
  Forall2 (fun id vi => parent_info db' id = Some (with_formats vi [])) ids vis.
Proof.
  intros fails db vis ids db' H. apply in_transaction_ok, insert_bulk_loop_ok in H.
  tauto.
Qed.

(** C1: on a store the program can reach, a successful [insert_video_info]
    followed by [fetch_one] of the returned id (the engine running both
    queries) gives back the record: the same parent columns and the same
    variants, as a multiset (in fact in the same order). *)
Theorem insert_then_fetch_one : forall fails db vi id db',
  wf db ->
  insert_video_info fails vi db = (Ok id, db') ->
  fails (FetchOneInfo id) db' = false ->
  fails (FetchOneFormats id) db' = false ->
  exists mv, fetch_one fails id db' = (Ok mv, db') /\ mv_id mv = id /\
    with_formats (video_info mv) [] = with_formats vi [] /\
    Permutation (video_formats (video_info mv)) (video_formats vi).
Proof.
  intros fails db vi id db' Hwf H Hinfo Hfmt.
  apply in_transaction_ok, insert_record_ok in H.
  destruct H as (Hid & _ & Hi & Hs & extra & Hf & Hm & Hfa).
  assert (Hrow : select_one_info db' id = Some (info_row_of id vi)).
  { unfold select_one_info. rewrite Hi, find_app_skip.
    - simpl. rewrite Z.eqb_refl. reflexivity.
    - apply Forall_forall. intros r Hr. apply in_frontier in Hr. lia. }
  assert (Hsel : select_formats db' id = extra).
  { unfold select_formats. rewrite Hf, filter_app.
    rewrite filter_all_false, (filter_all_true _ extra); [reflexivity| |].
    - intros f Hin. apply Z.eqb_eq. exact (proj1 (Forall_forall _ _) Hfa f Hin).
    - intros f Hin. apply Z.eqb_neq. destruct Hwf as (_ & _ & Hfw & _).
      apply (proj1 (Forall_forall _ _) Hfw) in Hin. unfold frontier in Hid. lia. }
  unfold fetch_one, bind, fetch_one_info, fetch_formats, exec, ret.
  rewrite Hinfo, Hrow, Hfmt, Hsel, Hm, video_info_from_info_row, with_formats_own.
  eexists. split; [reflexivity|]. simpl. auto.
Qed.

(** ** The reachable stores are well formed *)

Lemma wf_empty : wf empty_store.
Proof. repeat split; simpl; try constructor; lia. Qed.

Lemma wf_frontier st : wf st -> frontier st = seq_video_info st.
Proof.
  intros (_ & Hi & _ & Hs & _). unfold frontier.
  assert (max_key (map r_id (tbl_video_info st)) <= seq_video_info st); [|lia].
  clear -Hi Hs. induction (tbl_video_info st) as [|r l IH]; simpl; [lia|].
  inversion Hi as [|? ? [_ Hr] Hl]; subst. specialize (IH Hl). lia.
Qed.

Lemma wf_insert_format fails vf id st r st' :
  wf st -> id <= seq_video_info st ->
  insert_format fails vf id st = (r, st') ->
  wf st' /\ seq_video_info st' = seq_video_info st.
Proof.
  intros Hwf Hid. unfold insert_format, exec.
  destruct (fails (InsertFormat vf id) st); intros H; inversion H; subst; [auto|].
  destruct Hwf as (Hnd & Hi & Hf & Hs & Hsf).
  unfold insert_format_row, next_rowid.
  pose proof (max_key_nonneg (map f_id (tbl_video_format st))).
  split; [|reflexivity].
  unfold wf. cbn [tbl_video_info tbl_video_format seq_video_info seq_video_format].
  split; [exact Hnd|]. split; [exact Hi|]. split; [|split; [exact Hs|lia]].
  apply Forall_app. split.
  - eapply Forall_impl; [|exact Hf]. intros f [H1 H2]. split; lia.
  - constructor; [cbn [f_video_info_id f_id]; lia|constructor].
Qed.

Lemma wf_insert_formats fails vfs id st r st' :
  wf st -> id <= seq_video_info st ->
  insert_formats fails vfs id st = (r, st') ->
  wf st' /\ seq_video_info st' = seq_video_info st.
Proof.
  revert st r st'. induction vfs as [|vf vfs IH]; simpl; intros st r st' Hwf Hid H.
  - unfold ret in H. inversion H; subst. auto.
  - unfold bind in H. destruct (insert_format fails vf id st) as [r1 st1] eqn:E.
    apply wf_insert_format in E; [|assumption|assumption]. destruct E as [Hwf1 Hs1].
    destruct r1.
    + apply IH in H; [|assumption|lia]. destruct H. split; [assumption|congruence].
    + inversion H; subst. auto.
Qed.

Lemma wf_insert_record fails vi tx id tx' :
  wf tx -> insert_record fails vi tx = (Ok id, tx') -> wf tx'.
Proof.
  intros Hwf H. unfold insert_record, bind at 1 in H.
  destruct (insert_info fails vi tx) as [[id1|e] tx1] eqn:E1; [|congruence].
  unfold bind in H.
  destruct (insert_formats fails _ id1 tx1) as [r2 tx2] eqn:E2.
  apply insert_info_ok in E1. destruct E1 as (Hid & Hmax & Hi & Hs & Hf & Hsf1).
  rewrite (wf_frontier _ Hwf) in Hid.
  assert (Hwf1 : wf tx1).
  { destruct Hwf as (Hnd & Hri & Hfi & Hs0 & Hsf).
    unfold wf. rewrite Hi, Hs, Hf.
    repeat split.
    - rewrite map_app. eapply Permutation_NoDup;
        [apply Permutation_cons_append|]. constructor; [|exact Hnd].
      intros Hin. apply in_map_iff in Hin. destruct Hin as [r [Hr Hin]].
      apply (proj1 (Forall_forall _ _) Hri) in Hin. simpl in Hr. lia.
    - apply Forall_app. split.
      + eapply Forall_impl; [|exact Hri]. simpl. intros r [H1 H2]. lia.
      + constructor; [simpl; lia|constructor].
    - eapply Forall_impl; [|exact Hfi]. simpl. intros f [H1 H2]. lia.
    - lia.
    - lia. }
  apply wf_insert_formats in E2; [|exact Hwf1|lia].
  destruct E2 as [Hwf2 _]. destruct r2; unfold ret in H; [|congruence].
  inversion H; subst. exact Hwf2.
Qed.

Lemma wf_insert_bulk_loop fails vis tx ids tx' :
  wf tx -> insert_bulk_loop fails vis tx = (Ok ids, tx') -> wf tx'.
Proof.
  revert tx ids tx'. induction vis as [|vi vis IH]; simpl; intros tx ids tx' Hwf H.
  - unfold ret in H. inversion H; subst. exact Hwf.
  - unfold bind at 1 in H.
    destruct (insert_record fails vi tx) as [[id|e] tx1] eqn:E1; [|congruence].
    apply wf_insert_record in E1; [|exact Hwf].
    unfold bind in H.
    destruct (insert_bulk_loop fails vis tx1) as [[ids'|e] tx2] eqn:E2; [|congruence].
    unfold ret in H. inversion H; subst. eapply IH; eauto.
Qed.

Lemma wf_in_transaction {A} fails (body : Sql A) db :
  wf db -> (forall a tx', body db = (Ok a, tx') -> wf tx') ->
  wf (snd (in_transaction fails body db)).
Proof.
  intros Hwf Hbody. destruct (in_transaction fails body db) as [[a|e] db'] eqn:E; simpl.
  - apply in_transaction_ok in E. eauto.
  - apply in_transaction_err in E. subst. exact Hwf.
Qed.

Lemma NoDup_map_filter {A B} (f : A -> B) (p : A -> bool) l :
  NoDup (map f l) -> NoDup (map f (filter p l)).
Proof.
  induction l as [|x l IH]; simpl; intros H; [constructor|].
  inversion H as [|? ? Hx Hl]; subst.
  destruct (p x); simpl; [|auto].
  constructor; [|auto]. intros Hin. apply Hx.
  apply in_map_iff in Hin. destruct Hin as [y [Hy Hin]].
  apply filter_In in Hin. rewrite <- Hy. apply in_map. tauto.
Qed.

Lemma wf_delete_rows st p : wf st -> wf (snd (delete_rows st p)).
Proof.
  intros (Hnd & Hi & Hf & Hs & Hsf). unfold delete_rows, wf. simpl.
  split; [apply NoDup_map_filter, Hnd|]. split; [|tauto].
  apply Forall_forall. intros r Hr. apply filter_In in Hr.
  exact (proj1 (Forall_forall _ _) Hi r (proj1 Hr)).
Qed.

(** Every store the program reaches from an empty file, through any
    sequence of writes, with any engine failures, is well formed; reads do not
    write. *)
Lemma wf_preserved : forall fails,
  wf empty_store /\
  (forall db vi, wf db -> wf (snd (insert_video_info fails vi db))) /\
  (forall db vis, wf db -> wf (snd (insert_bulk_video_info fails vis db))) /\
  (forall db id, wf db -> wf (snd (delete_video_info fails id db))) /\
  (forall db, wf db -> wf (snd (delete_all fails db))).
Proof.
  intros fails. split; [exact wf_empty|]. split; [|split; [|split]].
  - intros db vi Hwf. apply wf_in_transaction; [exact Hwf|].
    intros a tx' H. eapply wf_insert_record; eauto.
  - intros db vis Hwf. apply wf_in_transaction; [exact Hwf|].
    intros a tx' H. eapply wf_insert_bulk_loop; eauto.
  - intros db id Hwf. unfold delete_video_info, exec.
    destruct (fails (DeleteOne id) db); [exact Hwf|].
    destruct (delete_rows db _) as [n st'] eqn:E. simpl.
    replace st' with (snd (delete_rows db (fun r => r_id r =? id))) by now rewrite E.
    apply wf_delete_rows, Hwf.
  - intros db Hwf. unfold delete_all, exec.
    destruct (fails DeleteAllRows db); [exact Hwf|].
    destruct (delete_rows db _) as [n st'] eqn:E. simpl.
    replace st' with (snd (delete_rows db (fun _ => true))) by now rewrite E.
    apply wf_delete_rows, Hwf.
Qed.


(** ** Concrete runs *)

Ltac solve_wf :=
  unfold wf, test_store, test_store_deleted, test_store_inserted, i32_max;
  cbn [tbl_video_info tbl_video_format seq_video_info seq_video_format
       map r_id f_id f_video_info_id];
  split; [repeat constructor; simpl; lia|];
  split; [apply Forall_forall; intros ? Hr; simpl in Hr;
          intuition (subst; simpl; lia)|];
  split; [apply Forall_forall; intros ? Hf; simpl in Hf;
          intuition (subst; simpl; lia)|];
  lia.

(** A bulk insert whose third record fails leaves the fresh file empty. *)
Example bulk_insert_failing_third :
  insert_bulk_video_info fails_on_id3 test_videos empty_store =
  (Err Database, empty_store).
Proof. vm_compute. reflexivity. Qed.

Lemma insert_then_fetch_one_witness :
  wf test_store_deleted /\
  insert_video_info no_fail test_new_video test_store_deleted =
    (Ok 6, test_store_inserted) /\
  exists mv, fetch_one no_fail 6 test_store_inserted = (Ok mv, test_store_inserted) /\
    mv_id mv = 6 /\
    with_formats (video_info mv) [] = with_formats test_new_video [] /\
    Permutation (video_formats (video_info mv)) (video_formats test_new_video).
Proof.
  split; [solve_wf|]. split; [vm_compute; reflexivity|].
  apply (insert_then_fetch_one no_fail test_store_deleted test_new_video 6
           test_store_inserted);
    [solve_wf | vm_compute; reflexivity | reflexivity | reflexivity].
Defined.

Lemma fetch_chunk_of_five_rows_witness :
  map r_id (tbl_video_info test_store) = [1; 2; 3; 4; 5] /\
  chunk_ids no_fail test_store 1 5 GEQandASC = Some [1; 2; 3; 4; 5] /\
  chunk_ids no_fail test_store 1 5 LEQandDESC = Some [1] /\
  chunk_ids no_fail test_store 5 5 GEQandASC = Some [5] /\
  chunk_ids no_fail test_store 5 5 LEQandDESC = Some [5; 4; 3; 2; 1] /\
  chunk_ids no_fail test_store 3 5 GEQandASC = Some [3; 4; 5] /\
  chunk_ids no_fail test_store 3 5 LEQandDESC = Some [3; 2; 1].
Proof.
  split; [reflexivity|]. apply fetch_chunk_of_five_rows. reflexivity.
Defined.

Lemma insert_bulk_ids_witness :
  insert_bulk_video_info no_fail test_videos empty_store =
    (Ok [1; 2; 3; 4; 5], test_store) /\
  List.length [1; 2; 3; 4; 5] = List.length test_videos /\
  Sorted Z.lt [1; 2; 3; 4; 5] /\
  Forall2 (fun id vi => parent_info test_store id = Some (with_formats vi []))
    [1; 2; 3; 4; 5] test_videos.
Proof.
  split; [vm_compute; reflexivity|].
  apply (insert_bulk_ids no_fail empty_store). vm_compute. reflexivity.
Defined.

Lemma delete_video_info_count_witness :
  wf test_store /\ no_fail (DeleteOne 3) test_store = false /\
  fst (delete_video_info no_fail 3 test_store) <> Err RowNotFound /\
  (~ has_row test_store 3 -> delete_video_info no_fail 3 test_store = (Ok 0%N, test_store)) /\
  (has_row test_store 3 ->
   exists st', delete_video_info no_fail 3 test_store = (Ok 1%N, st') /\
     (no_fail (FetchOneInfo 3) st' = false ->
      fst (fetch_one no_fail 3 st') = Err RowNotFound)).
Proof.
  split; [solve_wf|]. split; [reflexivity|].
  apply delete_video_info_count; [solve_wf|reflexivity].
Defined.

Lemma fetch_one_not_found_witness :
  no_fail (FetchOneInfo 2) test_store = false /\
  (fst (fetch_one no_fail 2 test_store) = Err RowNotFound <-> ~ has_row test_store 2) /\
  (has_row test_store 2 -> no_fail (FetchOneFormats 2) test_store = false ->
   exists mv, fetch_one no_fail 2 test_store = (Ok mv, test_store) /\ mv_id mv = 2 /\
     video_formats (video_info mv) =
       map video_format_from_row (select_formats test_store 2) /\
     (select_formats test_store 2 = [] -> video_formats (video_info mv) = [])).
Proof.
  split; [reflexivity|]. apply fetch_one_not_found. reflexivity.
Defined.

Lemma fetch_chunk_of_short_page_witness :
  wf test_store /\
  exists mvs,
    fetch_chunk_of no_fail 3 10 GEQandASC test_store = (Ok mvs, test_store) /\
    (List.length mvs <= N.to_nat 10)%nat /\
    ((List.length (qualifying test_store 3 GEQandASC) <= N.to_nat 10)%nat ->
     Permutation mvs (map (managed_of_row test_store) (qualifying test_store 3 GEQandASC))).
Proof.
  split; [solve_wf|]. apply fetch_chunk_of_short_page. solve_wf.
Defined.

(** ** Further properties of the code *)

(** *** Order of the chunk queries *)

(** [r] comes no later than [r'] in [ORDER BY id] under [le]. *)
Definition row_le (le : Z -> Z -> bool) (a b : InfoRow) : Prop :=
  le (r_id a) (r_id b) = true.

(** The strict order in which a chunk query lists its ids. *)
Definition ord_lt (ord : FetchOrd) : Z -> Z -> Prop :=
  match ord with GEQandASC => Z.lt | LEQandDESC => Z.gt end.

Section Ordering.

Variable le : Z -> Z -> bool.
Hypothesis le_total : forall x y, le x y = false -> le y x = true.
Hypothesis le_trans : forall x y z, le x y = true -> le y z = true -> le x z = true.

Lemma insert_by_HdRel a r l :
  HdRel (row_le le) a l -> row_le le a r -> HdRel (row_le le) a (insert_by le r l).
Proof.
  destruct l as [|r' l]; simpl; intros H Har; [constructor; exact Har|].
  destruct (le (r_id r) (r_id r')); constructor; [exact Har|].
  inversion H; assumption.
Qed.

Lemma insert_by_sorted r l :
  Sorted (row_le le) l -> Sorted (row_le le) (insert_by le r l).
Proof.
  induction 1 as [|r' l Hl IH Hhd]; simpl; [repeat constructor|].
  destruct (le (r_id r) (r_id r')) eqn:E.
  - constructor; [constructor; assumption|constructor; exact E].
  - constructor; [exact IH|]. apply insert_by_HdRel; [exact Hhd|].
    unfold row_le. apply le_total, E.
Qed.

Lemma order_by_strongly_sorted l : StronglySorted (row_le le) (order_by le l).
Proof.
  apply Sorted_StronglySorted.
  - intros x y z. unfold row_le. apply le_trans.
  - induction l as [|r l IH]; simpl; [constructor|]. apply insert_by_sorted, IH.
Qed.

End Ordering.

Lemma ord_le_total ord x y : ord_le ord x y = false -> ord_le ord y x = true.
Proof.
  destruct ord; cbn [ord_le]; rewrite ?Z.geb_leb; intros H;
    apply Z.leb_gt in H; apply Z.leb_le; lia.
Qed.

Lemma ord_le_trans ord x y z :
  ord_le ord x y = true -> ord_le ord y z = true -> ord_le ord x z = true.
Proof.
  destruct ord; cbn [ord_le]; rewrite ?Z.geb_leb; intros H1 H2;
    apply Z.leb_le in H1; apply Z.leb_le in H2; apply Z.leb_le; lia.
Qed.

Lemma ord_le_lt ord x y : ord_le ord x y = true -> x <> y -> ord_lt ord x y.
Proof.
  destruct ord; cbn [ord_le ord_lt]; rewrite ?Z.geb_leb; intros H Hne;
    apply Z.leb_le in H; lia.
Qed.

Lemma StronglySorted_app_rel {A} (R : A -> A -> Prop) l1 l2 x y :
  StronglySorted R (l1 ++ l2) -> In x l1 -> In y l2 -> R x y.
Proof.
  induction l1 as [|a l1 IH]; simpl; intros H Hx Hy; [contradiction|].
  apply StronglySorted_inv in H. destruct H as [H Ha].
  destruct Hx as [<-|Hx].
  - rewrite Forall_forall in Ha. apply Ha, in_or_app. now right.
  - eauto.
Qed.

Lemma StronglySorted_app_l {A} (R : A -> A -> Prop) l1 l2 :
  StronglySorted R (l1 ++ l2) -> StronglySorted R l1.
Proof.
  induction l1 as [|a l1 IH]; simpl; intros H; [constructor|].
  apply StronglySorted_inv in H. destruct H as [H Ha]. constructor; [auto|].
  rewrite Forall_forall in *. intros y Hy. apply Ha, in_or_app. now left.
Qed.

Lemma StronglySorted_ids_strict le (lt : Z -> Z -> Prop) l :
  (forall x y, le x y = true -> x <> y -> lt x y) ->
  StronglySorted (row_le le) l -> NoDup (map r_id l) ->
  StronglySorted lt (map r_id l).
Proof.
  intros Hlt. induction 1 as [|a l Hl IH Ha]; simpl; intros Hnd; [constructor|].
  apply NoDup_cons_iff in Hnd. destruct Hnd as [Hnotin Hnd].
  constructor; [auto|]. apply Forall_forall. intros y Hy.
  apply in_map_iff in Hy. destruct Hy as [b [<- Hb]].
  apply Hlt; [exact (proj1 (Forall_forall _ _) Ha b Hb)|].
  intros Heq. apply Hnotin. rewrite Heq. now apply in_map.
Qed.

(** The first [n] rows of [order_by le l]: their ids strictly ordered, and
    every row of [l] left out comes after all of them. *)
Lemma limit_order_by_nearest le (lt : Z -> Z -> Prop) n l :
  (forall x y, le x y = false -> le y x = true) ->
  (forall x y z, le x y = true -> le y z = true -> le x z = true) ->
  (forall x y, le x y = true -> x <> y -> lt x y) ->
  NoDup (map r_id l) ->
  StronglySorted lt (map r_id (limit n (order_by le l))) /\
  (forall r, In r l -> ~ In (r_id r) (map r_id (limit n (order_by le l))) ->
     Forall (fun r' => lt (r_id r') (r_id r)) (limit n (order_by le l))).
Proof.
  intros Htot Htrans Hlt Hnd.
  pose proof (order_by_strongly_sorted le Htot Htrans l) as Hss.
  assert (Hnd' : NoDup (map r_id (order_by le l))).
  { eapply Permutation_NoDup; [|exact Hnd].
    apply Permutation_map. symmetry. apply order_by_perm. }
  unfold limit. rewrite <- (firstn_skipn (N.to_nat n) (order_by le l)) in Hss, Hnd'.
  split.
  - apply StronglySorted_ids_strict with (le := le); [exact Hlt| |].
    + eapply StronglySorted_app_l. exact Hss.
    + rewrite map_app in Hnd'. eapply NoDup_app_remove_r. exact Hnd'.
  - intros r Hr Hnot. apply Forall_forall. intros r' Hr'.
    assert (Hin : In r (skipn (N.to_nat n) (order_by le l))).
    { apply (Permutation_in _ (Permutation_sym (order_by_perm le l))) in Hr.
      rewrite <- (firstn_skipn (N.to_nat n)) in Hr. apply in_app_or in Hr.
      destruct Hr as [Hr|Hr]; [|exact Hr]. exfalso. apply Hnot. now apply in_map. }
    apply Hlt.
    + exact (StronglySorted_app_rel _ _ _ _ _ Hss Hr' Hin).
    + intros Heq. apply Hnot. rewrite <- Heq. now apply in_map.
Qed.

Lemma map_mv_id st l : map mv_id (map (managed_of_row st) l) = map r_id l.
Proof. rewrite map_map. reflexivity. Qed.

Lemma fetch_first_chunk_from_bottom_rows st :
  Forall in_i32 (tbl_video_info st) ->
  fetch_first_chunk_from_bottom no_fail st =
  (Ok (map (managed_of_row st) (query_chunk_bottom st NUM_ENTRIES)), st).
Proof.
  intros Hrange.
  assert (Hq : Forall in_i32 (query_chunk_bottom st NUM_ENTRIES)).
  { apply Forall_forall. intros r Hr. unfold query_chunk_bottom in Hr.
    apply In_limit, (Permutation_in _ (order_by_perm _ _)) in Hr.
    exact (proj1 (Forall_forall _ _) Hrange r Hr). }
  unfold fetch_first_chunk_from_bottom, bind, fetch_id_and_infos, exec, no_fail.
  rewrite decode_all_in_range by exact Hq.
  apply attach_formats_no_fail.
Qed.

(** *** Lookup by id *)

Lemma NoDup_map_inj {A B} (f : A -> B) l a b :
  NoDup (map f l) -> In a l -> In b l -> f a = f b -> a = b.
Proof.
  induction l as [|x l IH]; simpl; intros Hnd Ha Hb Heq; [contradiction|].
  apply NoDup_cons_iff in Hnd. destruct Hnd as [Hx Hnd].
  destruct Ha as [<-|Ha], Hb as [<-|Hb]; auto.
  - exfalso. apply Hx. rewrite Heq. now apply in_map.
  - exfalso. apply Hx. rewrite <- Heq. now apply in_map.
Qed.

(** On a running engine, [fetch_one] of the key of a row gives that row
    with its variants, as the loop of [fetch_chunk_of] builds it. *)
Lemma fetch_one_row st r :
  NoDup (map r_id (tbl_video_info st)) -> In r (tbl_video_info st) ->
  fetch_one no_fail (r_id r) st = (Ok (managed_of_row st r), st).
Proof.
  intros Hnd Hr.
  destruct (select_one_info st (r_id r)) as [r'|] eqn:E.
  - assert (r' = r).
    { unfold select_one_info in E. apply find_some in E. destruct E as [Hr' Hid].
      apply Z.eqb_eq in Hid. eapply NoDup_map_inj; eauto. }
    subst r'. unfold fetch_one, bind, fetch_one_info, fetch_formats, exec, ret, no_fail.
    rewrite E. reflexivity.
  - apply select_one_info_None in E. exfalso. apply E. now exists r.
Qed.

(** [fetch_one] on a running engine depends only on the parent row and the
    variant rows of its id, and does not write. *)
Lemma fetch_one_same_rows st st' id :
  select_one_info st' id = select_one_info st id ->
  select_formats st' id = select_formats st id ->
  fetch_one no_fail id st' = (fst (fetch_one no_fail id st), st').
Proof.
  intros H1 H2. unfold fetch_one, bind, fetch_one_info, fetch_formats, exec, ret, no_fail.
  rewrite H1. destruct (select_one_info st id); cbv beta iota; [rewrite H2|];
    reflexivity.
Qed.

Lemma find_filter {A} (p q : A -> bool) l :
  (forall x, p x = true -> q x = true) -> find p (filter q l) = find p l.
Proof.
  intros H. induction l as [|x l IH]; simpl; [reflexivity|].
  destruct (q x) eqn:Eq; simpl.
  - destruct (p x); [reflexivity|exact IH].
  - destruct (p x) eqn:Ep; [|exact IH]. apply H in Ep. congruence.
Qed.

Lemma find_app_none {A} (p : A -> bool) l1 l2 :
  (forall x, In x l2 -> p x = false) -> find p (l1 ++ l2) = find p l1.
Proof.
  intros H. induction l1 as [|x l1 IH]; simpl.
  - induction l2 as [|y l2 IH2]; simpl; [reflexivity|].
    rewrite H by (now left). apply IH2. intros z Hz. apply H. now right.
  - rewrite IH. reflexivity.
Qed.

(** Rows appended with larger keys leave the lookup of [id] as it was. *)
Lemma select_after_append st st' ni nf id :
  tbl_video_info st' = tbl_video_info st ++ ni ->
  tbl_video_format st' = tbl_video_format st ++ nf ->
  Forall (fun r => id < r_id r) ni ->
  Forall (fun f => id < f_video_info_id f) nf ->
  select_one_info st' id = select_one_info st id /\
  select_formats st' id = select_formats st id.
Proof.
  intros Hi Hf Hni Hnf. unfold select_one_info, select_formats. rewrite Hi, Hf.
  split.
  - apply find_app_none. intros r Hr. apply Z.eqb_neq.
    pose proof (proj1 (Forall_forall _ _) Hni r Hr) as Hb. simpl in Hb. lia.
  - rewrite filter_app, (filter_all_false _ nf), app_nil_r; [reflexivity|].
    intros f Hf'. apply Z.eqb_neq.
    pose proof (proj1 (Forall_forall _ _) Hnf f Hf') as Hb. simpl in Hb. lia.
Qed.

(** *** Rows written by the inserts *)

(** One record: its parent row and variant rows are appended, with keys
    above every key handed out before. *)
Lemma insert_record_rows fails vi tx id tx' :
  insert_record fails vi tx = (Ok id, tx') ->
  frontier tx < frontier tx' /\
  exists ni nf,
    tbl_video_info tx' = tbl_video_info tx ++ ni /\
    tbl_video_format tx' = tbl_video_format tx ++ nf /\
    Forall (fun r => frontier tx < r_id r <= frontier tx') ni /\
    Forall (fun f => frontier tx < f_video_info_id f <= frontier tx') nf /\
    map (fun r => with_formats (video_info_from_row r) []) ni = [with_formats vi []] /\
    map video_format_from_row nf = video_formats vi.
Proof.
  intros H. pose proof (frontier_after_record _ _ _ _ _ H) as Hfr.
  apply insert_record_ok in H. destruct H as (Hid & _ & Hi & _ & extra & Hf & Hm & Hfa).
  rewrite Hfr. split; [lia|].
  exists [info_row_of id vi], extra. split; [exact Hi|]. split; [exact Hf|].
  split; [constructor; [simpl; lia|constructor]|].
  split; [eapply Forall_impl; [|exact Hfa]; simpl; intros f ->; lia|].
  split; [simpl; rewrite video_info_from_info_row; reflexivity|exact Hm].
Qed.

Lemma insert_bulk_loop_rows fails vis tx ids tx' :
  insert_bulk_loop fails vis tx = (Ok ids, tx') ->
  frontier tx <= frontier tx' /\
  exists ni nf,
    tbl_video_info tx' = tbl_video_info tx ++ ni /\
    tbl_video_format tx' = tbl_video_format tx ++ nf /\
    Forall (fun r => frontier tx < r_id r <= frontier tx') ni /\
    Forall (fun f => frontier tx < f_video_info_id f <= frontier tx') nf /\
    map (fun r => with_formats (video_info_from_row r) []) ni =
      map (fun vi => with_formats vi []) vis /\
    map video_format_from_row nf = flat_map video_formats vis.
Proof.
  revert tx ids tx'. induction vis as [|vi vis IH]; simpl; intros tx ids tx' H.
  - unfold ret in H. inversion H; subst. split; [lia|].
    exists [], []. rewrite !app_nil_r. repeat split; constructor.
  - unfold bind at 1 in H.
    destruct (insert_record fails vi tx) as [[id|e] tx1] eqn:E1; [|congruence].
    unfold bind in H.
    destruct (insert_bulk_loop fails vis tx1) as [[ids'|e] tx2] eqn:E2; [|congruence].
    unfold ret in H. inversion H; subst ids tx2. clear H.
    apply insert_record_rows in E1.
    destruct E1 as (Hlt1 & ni1 & nf1 & Hi1 & Hf1 & Hni1 & Hnf1 & Hm1 & Hf1').
    apply IH in E2.
    destruct E2 as (Hle2 & ni2 & nf2 & Hi2 & Hf2 & Hni2 & Hnf2 & Hm2 & Hf2').
    split; [lia|]. exists (ni1 ++ ni2), (nf1 ++ nf2).
    rewrite Hi2, Hi1, Hf2, Hf1, <- !app_assoc. split; [reflexivity|].
    split; [reflexivity|]. split; [|split; [|split]].
    + apply Forall_app. split.
      * eapply Forall_impl; [|exact Hni1]. simpl. lia.
      * eapply Forall_impl; [|exact Hni2]. simpl. lia.
    + apply Forall_app. split.
      * eapply Forall_impl; [|exact Hnf1]. simpl. lia.
      * eapply Forall_impl; [|exact Hnf2]. simpl. lia.
    + rewrite map_app, Hm1, Hm2. reflexivity.
    + rewrite map_app, Hf1', Hf2'. reflexivity.
Qed.

(** A record just inserted into a well formed store reads back exactly. *)
Lemma insert_record_fetch fails vi tx id tx' :
  wf tx -> insert_record fails vi tx = (Ok id, tx') ->
  fetch_one no_fail id tx' = (Ok (ManagedVideo_new id vi), tx').
Proof.
  intros Hwf H. apply insert_record_ok in H.
  destruct H as (Hid & _ & Hi & Hs & extra & Hf & Hm & Hfa).
  assert (Hrow : select_one_info tx' id = Some (info_row_of id vi)).
  { unfold select_one_info. rewrite Hi, find_app_skip.
    - simpl. rewrite Z.eqb_refl. reflexivity.
    - apply Forall_forall. intros r Hr. apply in_frontier in Hr. lia. }
  assert (Hsel : select_formats tx' id = extra).
  { unfold select_formats. rewrite Hf, filter_app.
    rewrite filter_all_false, (filter_all_true _ extra); [reflexivity| |].
    - intros f Hin. apply Z.eqb_eq. exact (proj1 (Forall_forall _ _) Hfa f Hin).
    - intros f Hin. apply Z.eqb_neq. destruct Hwf as (_ & _ & Hfw & _).
      apply (proj1 (Forall_forall _ _) Hfw) in Hin. unfold frontier in Hid. lia. }
  unfold fetch_one, bind, fetch_one_info, fetch_formats, exec, ret, no_fail.
  rewrite Hrow, Hsel, Hm, video_info_from_info_row, with_formats_own. reflexivity.
Qed.

Lemma insert_bulk_loop_fetch fails vis tx ids tx' :
  wf tx -> insert_bulk_loop fails vis tx = (Ok ids, tx') ->
  Forall2 (fun id vi => fetch_one no_fail id tx' = (Ok (ManagedVideo_new id vi), tx'))
    ids vis.
Proof.
  revert tx ids tx'. induction vis as [|vi vis IH]; simpl; intros tx ids tx' Hwf H.
  - unfold ret in H. inversion H; subst. constructor.
  - unfold bind at 1 in H.
    destruct (insert_record fails vi tx) as [[id|e] tx1] eqn:E1; [|congruence].
    unfold bind in H.
    destruct (insert_bulk_loop fails vis tx1) as [[ids'|e] tx2] eqn:E2; [|congruence].
    unfold ret in H. inversion H; subst ids tx2. clear H.
    pose proof (wf_insert_record _ _ _ _ _ Hwf E1) as Hwf1.
    pose proof (frontier_after_record _ _ _ _ _ E1) as Hfr.
    pose proof (insert_record_fetch _ _ _ _ _ Hwf E1) as Hget.
    constructor; [|eapply IH; eauto].
    apply insert_bulk_loop_rows in E2.
    destruct E2 as (_ & ni & nf & Hi & Hf & Hni & Hnf & _).
    destruct (select_after_append tx1 tx' ni nf id Hi Hf) as [Hs1 Hs2].
    + eapply Forall_impl; [|exact Hni]. simpl. lia.
    + eapply Forall_impl; [|exact Hnf]. simpl. lia.
    + rewrite (fetch_one_same_rows tx1 tx' id Hs1 Hs2), Hget. reflexivity.
Qed.

Lemma insert_bulk_loop_app fails vis1 vis2 tx :
  insert_bulk_loop fails (vis1 ++ vis2) tx =
  bind (insert_bulk_loop fails vis1)
    (fun ids1 => bind (insert_bulk_loop fails vis2) (fun ids2 => ret (ids1 ++ ids2))) tx.
Proof.
  revert tx. induction vis1 as [|vi vis1 IH]; intros tx; simpl.
  - unfold bind, ret. destruct (insert_bulk_loop fails vis2 tx) as [[|] ?]; reflexivity.
  - unfold bind at 1 3 4. destruct (insert_record fails vi tx) as [[id|e] tx1];
      cbv beta iota; [|reflexivity].
    unfold bind at 1. rewrite IH. unfold bind, ret.
    destruct (insert_bulk_loop fails vis1 tx1) as [[ids1|e] tx2]; [|reflexivity].
    destruct (insert_bulk_loop fails vis2 tx2) as [[ids2|e] tx3]; reflexivity.
Qed.

(** *** Consecutive chunks *)

(** The [starting_id] of the chunk that continues one whose last id is [z]. *)
Definition next_starting_id (ord : FetchOrd) (z : Z) : Z :=
  match ord with GEQandASC => z + 1 | LEQandDESC => z - 1 end.

Lemma firstn_add {A} (n m : nat) (l : list A) :
  firstn (n + m) l = firstn n l ++ firstn m (skipn n l).
Proof.
  revert l. induction n as [|n IH]; intros l; [reflexivity|].
  destruct l as [|x l]; simpl; [destruct m; reflexivity|f_equal; apply IH].
Qed.

Lemma last_map_ne {A B} (g : A -> B) l d z :
  l <> [] -> last (map g l) z = g (last l d).
Proof.
  induction l as [|x l IH]; intros Hne; [contradiction|].
  destruct l as [|y l]; [reflexivity|].
  change (last (map g (y :: l)) z = g (last (y :: l) d)). apply IH. discriminate.
Qed.

Lemma StronglySorted_app_r {A} (R : A -> A -> Prop) l1 l2 :
  StronglySorted R (l1 ++ l2) -> StronglySorted R l2.
Proof.
  induction l1 as [|a l1 IH]; simpl; intros H; [exact H|].
  apply StronglySorted_inv in H. apply IH, H.
Qed.

(** Two lists strictly sorted by the same order, with the same elements, are
    equal. *)
Lemma StronglySorted_same_elements {A} (R : A -> A -> Prop) l1 l2 :
  (forall x, ~ R x x) -> (forall x y, R x y -> R y x -> False) ->
  StronglySorted R l1 -> StronglySorted R l2 ->
  (forall x, In x l1 <-> In x l2) -> l1 = l2.
Proof.
  intros Hirr Hasym H1. revert l2.
  induction H1 as [|a l1 Hl1 IH Ha]; intros l2 H2 Hiff.
  - destruct l2 as [|b l2]; [reflexivity|]. exfalso. apply (Hiff b). now left.
  - destruct H2 as [|b l2 Hl2 Hb].
    + exfalso. apply (Hiff a). now left.
    + assert (a = b).
      { destruct (proj1 (Hiff a) (or_introl eq_refl)) as [<-|Hab]; [reflexivity|].
        destruct (proj2 (Hiff b) (or_introl eq_refl)) as [->|Hba]; [reflexivity|].
        exfalso. apply (Hasym a b).
        - exact (proj1 (Forall_forall _ _) Ha b Hba).
        - exact (proj1 (Forall_forall _ _) Hb a Hab). }
      subst b. f_equal. apply IH; [exact Hl2|]. intros x. split; intros Hx.
      * destruct (proj1 (Hiff x) (or_intror Hx)) as [<-|Hx']; [|exact Hx'].
        exfalso. exact (Hirr a (proj1 (Forall_forall _ _) Ha a Hx)).
      * destruct (proj2 (Hiff x) (or_intror Hx)) as [<-|Hx']; [|exact Hx'].
        exfalso. exact (Hirr a (proj1 (Forall_forall _ _) Hb a Hx)).
Qed.

Lemma StronglySorted_rows_strict le (lt : Z -> Z -> Prop) l :
  (forall x y, le x y = true -> x <> y -> lt x y) ->
  StronglySorted (row_le le) l -> NoDup (map r_id l) ->
  StronglySorted (fun a b => lt (r_id a) (r_id b)) l.
Proof.
  intros Hlt. induction 1 as [|a l Hl IH Ha]; simpl; intros Hnd; [constructor|].
  apply NoDup_cons_iff in Hnd. destruct Hnd as [Hnotin Hnd].
  constructor; [auto|]. apply Forall_forall. intros b Hb.
  apply Hlt; [exact (proj1 (Forall_forall _ _) Ha b Hb)|].
  intros Heq. apply Hnotin. rewrite Heq. now apply in_map.
Qed.

Lemma ordered_rows_strict st s ord :
  wf st ->
  StronglySorted (fun a b => ord_lt ord (r_id a) (r_id b))
    (order_by (ord_le ord) (qualifying st s ord)).
Proof.
  intros Hwf. apply StronglySorted_rows_strict with (le := ord_le ord).
  - apply ord_le_lt.
  - apply order_by_strongly_sorted; [apply ord_le_total|apply ord_le_trans].
  - eapply Permutation_NoDup.
    + apply Permutation_map. symmetry. apply order_by_perm.
    + unfold qualifying. apply NoDup_map_filter. apply Hwf.
Qed.

Lemma In_ordered_rows st s ord r :
  In r (order_by (ord_le ord) (qualifying st s ord)) <->
  In r (tbl_video_info st) /\ id_bound s ord r = true.
Proof.
  split; intros H.
  - apply (Permutation_in _ (order_by_perm _ _)) in H. unfold qualifying in H.
    apply filter_In in H. exact H.
  - apply (Permutation_in _ (Permutation_sym (order_by_perm _ _))).
    unfold qualifying. apply filter_In. exact H.
Qed.

Lemma next_bound ord z r :
  id_bound (next_starting_id ord z) ord r = true <-> ord_lt ord z (r_id r).
Proof. destruct ord; cbn [id_bound next_starting_id ord_lt]; rewrite Z.leb_le; lia. Qed.

(** The rows ordered for the chunk after the last id [z] of a chunk are the
    rows ordered for the first chunk, past its first [n]. *)
Lemma ordered_rows_next st sid ord n d :
  wf st -> limit n (order_by (ord_le ord) (qualifying st sid ord)) <> [] ->
  order_by (ord_le ord)
    (qualifying st
       (next_starting_id ord (r_id (last (limit n (order_by (ord_le ord)
                                                     (qualifying st sid ord))) d)))
       ord) =
  skipn (N.to_nat n) (order_by (ord_le ord) (qualifying st sid ord)).
Proof.
  intros Hwf Hne.
  pose proof (ordered_rows_strict st sid ord Hwf) as Hs.
  pose proof (In_ordered_rows st sid ord) as HinS.
  set (S := order_by (ord_le ord) (qualifying st sid ord)) in *.
  set (P := limit n S) in *.
  set (L := last P d).
  assert (HS : S = P ++ skipn (N.to_nat n) S) by (symmetry; apply firstn_skipn).
  assert (HP : P = removelast P ++ [L]) by (apply app_removelast_last; exact Hne).
  assert (HL : In L P) by (rewrite HP; apply in_or_app; right; now left).
  assert (Hbefore : forall x, In x P -> x = L \/ ord_lt ord (r_id x) (r_id L)).
  { intros x Hx. rewrite HP in Hx. apply in_app_or in Hx.
    destruct Hx as [Hx|[<-|[]]]; [right|now left].
    rewrite HS in Hs. apply StronglySorted_app_l in Hs. rewrite HP in Hs.
    exact (StronglySorted_app_rel _ _ _ _ _ Hs Hx (or_introl eq_refl)). }
  assert (HLb : id_bound sid ord L = true).
  { apply HinS. rewrite HS. apply in_or_app. now left. }
  apply StronglySorted_same_elements with
    (R := fun a b => ord_lt ord (r_id a) (r_id b)).
  - intros x. destruct ord; cbn [ord_lt]; lia.
  - intros x y. destruct ord; cbn [ord_lt]; lia.
  - apply ordered_rows_strict, Hwf.
  - rewrite HS in Hs. eapply StronglySorted_app_r. exact Hs.
  - intros x. rewrite In_ordered_rows, next_bound. split.
    + intros [Hx Hlt].
      assert (Hxs : In x S).
      { apply HinS. split; [exact Hx|].
        destruct ord; cbn [id_bound ord_lt] in *; apply Z.leb_le in HLb;
          apply Z.leb_le; lia. }
      rewrite HS in Hxs. apply in_app_or in Hxs. destruct Hxs as [Hxs|Hxs]; [|exact Hxs].
      exfalso. destruct (Hbefore x Hxs) as [->|Hlt'];
        destruct ord; cbn [ord_lt] in *; lia.
    + intros Hx.
      assert (Hxs : In x S) by (rewrite HS; apply in_or_app; now right).
      split; [apply HinS, Hxs|].
      rewrite HS in Hs. exact (StronglySorted_app_rel _ _ _ _ _ Hs HL Hx).
Qed.

(** *** Extra properties *)

(** X1: on a running engine, [delete_all] reports as many rows as VIDEO_INFO
    held and empties it: afterwards no id is found and every chunk is
    empty. *)
Theorem delete_all_then_reads_empty : forall st,
  exists st',
    delete_all no_fail st = (Ok (N.of_nat (List.length (tbl_video_info st))), st') /\
    tbl_video_info st' = [] /\
    (forall id, fst (fetch_one no_fail id st') = Err RowNotFound) /\
    (forall sid n ord, fetch_chunk_of no_fail sid n ord st' = (Ok [], st')) /\
    fetch_first_chunk_from_bottom no_fail st' = (Ok [], st').
Proof.
  intros st.
  exists (mkStore [] (tbl_video_format st) (seq_video_info st) (seq_video_format st)).
  split; [|split; [reflexivity|split; [|split]]].
  - unfold delete_all, exec, delete_rows, no_fail.
    rewrite (filter_all_true (fun _ : InfoRow => true)) by reflexivity.
    rewrite (filter_all_false (fun _ : InfoRow => negb true)) by reflexivity.
    reflexivity.
  - intros id. reflexivity.
  - intros sid n ord. rewrite fetch_chunk_of_rows by constructor.
    unfold limit, qualifying, order_by. simpl. rewrite firstn_nil. reflexivity.
  - reflexivity.
Qed.

(** X2: whatever the engine does with it, [delete_video_info id] leaves what
    [fetch_one] reads for any other id unchanged. *)
Theorem delete_video_info_keeps_others : forall fails st id id',
  id' <> id ->
  fst (fetch_one no_fail id' (snd (delete_video_info fails id st))) =
  fst (fetch_one no_fail id' st).
Proof.
  intros fails st id id' Hne. unfold delete_video_info, exec.
  destruct (fails (DeleteOne id) st); [reflexivity|].
  destruct (delete_rows st (fun r => r_id r =? id)) as [n st'] eqn:E.
  assert (Hst' : st' = snd (delete_rows st (fun r => r_id r =? id))) by now rewrite E.
  simpl. rewrite (fetch_one_same_rows st st' id'); [reflexivity| |].
  - rewrite Hst'. unfold select_one_info, delete_rows. simpl.
    apply find_filter. intros r Hr. apply Z.eqb_eq in Hr. subst id'.
    apply negb_true_iff, Z.eqb_neq. exact Hne.
  - rewrite Hst'. reflexivity.
Qed.

(** X3: on a running engine and a store the program can reach,
    [fetch_chunk_of] returns [min num_entries k] records, [k] the number of rows
    satisfying the id bound, each one such row with its variants, their ids
    strictly increasing for [GEQandASC] and strictly decreasing for
    [LEQandDESC]; a qualifying row left out lies beyond all returned ids in
    that order, so the chunk is the nearest rows to [starting_id]. *)
Theorem fetch_chunk_of_nearest_first : forall st sid n ord,
  wf st ->
  exists mvs,
    fetch_chunk_of no_fail sid n ord st = (Ok mvs, st) /\
    List.length mvs = Nat.min (N.to_nat n) (List.length (qualifying st sid ord)) /\
    StronglySorted (ord_lt ord) (map mv_id mvs) /\
    Forall (fun mv => exists r, In r (qualifying st sid ord) /\ mv = managed_of_row st r)
      mvs /\
    (forall r, In r (qualifying st sid ord) -> ~ In (r_id r) (map mv_id mvs) ->
       Forall (fun mv => ord_lt ord (mv_id mv) (r_id r)) mvs).
Proof.
  intros st sid n ord Hwf.
  eexists. split; [apply fetch_chunk_of_rows, wf_in_i32, Hwf|].
  assert (Hnd : NoDup (map r_id (qualifying st sid ord)))
    by (apply NoDup_map_filter; apply Hwf).
  destruct (limit_order_by_nearest (ord_le ord) (ord_lt ord) n _ (ord_le_total ord)
              (ord_le_trans ord) (ord_le_lt ord) Hnd) as [Hs Hn].
  rewrite map_mv_id. split; [|split; [exact Hs|split]].
  - rewrite length_map. unfold limit.
    rewrite length_firstn, (Permutation_length (order_by_perm _ _)). reflexivity.
  - apply Forall_forall. intros mv Hmv. apply in_map_iff in Hmv.
    destruct Hmv as [r [<- Hr]]. exists r. split; [|reflexivity].
    apply In_limit, (Permutation_in _ (order_by_perm _ _)) in Hr. exact Hr.
  - intros r Hr Hnot. apply Forall_map. exact (Hn r Hr Hnot).
Qed.

(** X4: on a running engine and a store the program can reach,
    [fetch_first_chunk_from_bottom] returns the [min 20 k] records with the
    largest ids, [k] the number of parent rows, newest first: ids strictly
    decreasing, and every row left out has a smaller id than all of them. *)
Theorem fetch_first_chunk_from_bottom_newest : forall st,
  wf st ->
  exists mvs,
    fetch_first_chunk_from_bottom no_fail st = (Ok mvs, st) /\
    List.length mvs = Nat.min 20 (List.length (tbl_video_info st)) /\
    StronglySorted Z.gt (map mv_id mvs) /\
    Forall (fun mv => exists r, In r (tbl_video_info st) /\ mv = managed_of_row st r) mvs /\
    (forall r, In r (tbl_video_info st) -> ~ In (r_id r) (map mv_id mvs) ->
       Forall (fun mv => mv_id mv > r_id r) mvs).
Proof.
  intros st Hwf.
  eexists. split; [apply fetch_first_chunk_from_bottom_rows, wf_in_i32, Hwf|].
  destruct (limit_order_by_nearest Z.geb Z.gt NUM_ENTRIES (tbl_video_info st)
              (ord_le_total LEQandDESC) (ord_le_trans LEQandDESC) (ord_le_lt LEQandDESC)
              (proj1 Hwf)) as [Hs Hn].
  unfold query_chunk_bottom. rewrite map_mv_id. split; [|split; [exact Hs|split]].
  - rewrite length_map. unfold limit.
    rewrite length_firstn, (Permutation_length (order_by_perm _ _)). reflexivity.
  - apply Forall_forall. intros mv Hmv. apply in_map_iff in Hmv.
    destruct Hmv as [r [<- Hr]]. exists r. split; [|reflexivity].
    apply In_limit, (Permutation_in _ (order_by_perm _ _)) in Hr. exact Hr.
  - intros r Hr Hnot. apply Forall_map. exact (Hn r Hr Hnot).
Qed.

(** X5: on a running engine and a store the program can reach, for an id
    that has a parent row, [fetch_chunk_of id 1 ord] (either order) returns
    exactly the one record that [fetch_one id] returns. *)
Theorem fetch_one_is_chunk_of_one : forall st id ord,
  wf st -> has_row st id ->
  exists mv, fetch_one no_fail id st = (Ok mv, st) /\
             fetch_chunk_of no_fail id 1 ord st = (Ok [mv], st).
Proof.
  intros st id ord Hwf [r [Hr <-]].
  exists (managed_of_row st r). split; [apply fetch_one_row; [apply Hwf|exact Hr]|].
  rewrite fetch_chunk_of_rows by (apply wf_in_i32, Hwf).
  assert (Hq : In r (qualifying st (r_id r) ord)).
  { unfold qualifying. apply filter_In. split; [exact Hr|].
    destruct ord; apply Z.leb_refl. }
  pose proof (order_by_strongly_sorted (ord_le ord) (ord_le_total ord) (ord_le_trans ord)
                (qualifying st (r_id r) ord)) as Hss.
  pose proof (Permutation_in _ (Permutation_sym (order_by_perm (ord_le ord) _)) Hq) as Hin.
  pose proof (order_by_perm (ord_le ord) (qualifying st (r_id r) ord)) as Hperm.
  destruct (order_by (ord_le ord) (qualifying st (r_id r) ord)) as [|h rest] eqn:E;
    [contradiction|].
  assert (Hh : In h (qualifying st (r_id r) ord))
    by (apply (Permutation_in _ Hperm); now left).
  unfold qualifying in Hh. apply filter_In in Hh. destruct Hh as [Hh Hb].
  assert (h = r).
  { apply (NoDup_map_inj r_id (tbl_video_info st)); [apply Hwf|exact Hh|exact Hr|].
    apply StronglySorted_inv in Hss. destruct Hss as [_ Hall].
    destruct Hin as [<-|Hin]; [reflexivity|].
    pose proof (proj1 (Forall_forall _ _) Hall r Hin) as Hle. unfold row_le in Hle.
    destruct ord; cbn [ord_le id_bound] in Hb, Hle; rewrite ?Z.geb_leb in Hle;
      apply Z.leb_le in Hb; apply Z.leb_le in Hle; lia. }
  subst h. reflexivity.
Qed.

(** X6: a successful [insert_video_info] or [insert_bulk_video_info] only
    appends: the rows of both tables before the call are kept as they were,
    in front; the parent rows after them hold the records, in input order,
    and the variant rows after them hold the records' variants, in order. *)
Theorem inserts_append_only : forall fails db vi vis,
  (forall id db', insert_video_info fails vi db = (Ok id, db') ->
     exists ni nf,
       tbl_video_info db' = tbl_video_info db ++ ni /\
       tbl_video_format db' = tbl_video_format db ++ nf /\
       map (fun r => with_formats (video_info_from_row r) []) ni = [with_formats vi []] /\
       map video_format_from_row nf = video_formats vi) /\
  (forall ids db', insert_bulk_video_info fails vis db = (Ok ids, db') ->
     exists ni nf,
       tbl_video_info db' = tbl_video_info db ++ ni /\
       tbl_video_format db' = tbl_video_format db ++ nf /\
       map (fun r => with_formats (video_info_from_row r) []) ni =
         map (fun vi => with_formats vi []) vis /\
       map video_format_from_row nf = flat_map video_formats vis).
Proof.
  intros fails db vi vis. split.
  - intros id db' H. apply in_transaction_ok, insert_record_rows in H.
    destruct H as (_ & ni & nf & Hi & Hf & _ & _ & Hm & Hfm). eauto 6.
  - intros ids db' H. apply in_transaction_ok, insert_bulk_loop_rows in H.
    destruct H as (_ & ni & nf & Hi & Hf & _ & _ & Hm & Hfm). eauto 6.
Qed.

(** X7: after a successful [insert_video_info] or [insert_bulk_video_info],
    [fetch_one] on a running engine gives, for every id that had a parent row
    before, the same result as before: inserts never change an existing
    record or its variants. *)
Theorem inserts_keep_existing_records : forall fails db id0,
  has_row db id0 ->
  (forall vi id db', insert_video_info fails vi db = (Ok id, db') ->
     fetch_one no_fail id0 db' = (fst (fetch_one no_fail id0 db), db')) /\
  (forall vis ids db', insert_bulk_video_info fails vis db = (Ok ids, db') ->
     fetch_one no_fail id0 db' = (fst (fetch_one no_fail id0 db), db')).
Proof.
  intros fails db id0 [r [Hr <-]]. apply in_frontier in Hr.
  split.
  - intros vi id db' H. apply in_transaction_ok, insert_record_rows in H.
    destruct H as (_ & ni & nf & Hi & Hf & Hni & Hnf & _).
    destruct (select_after_append db db' ni nf (r_id r) Hi Hf) as [H1 H2].
    + eapply Forall_impl; [|exact Hni]. simpl. lia.
    + eapply Forall_impl; [|exact Hnf]. simpl. lia.
    + apply fetch_one_same_rows; assumption.
  - intros vis ids db' H. apply in_transaction_ok, insert_bulk_loop_rows in H.
    destruct H as (_ & ni & nf & Hi & Hf & Hni & Hnf & _).
    destruct (select_after_append db db' ni nf (r_id r) Hi Hf) as [H1 H2].
    + eapply Forall_impl; [|exact Hni]. simpl. lia.
    + eapply Forall_impl; [|exact Hnf]. simpl. lia.
    + apply fetch_one_same_rows; assumption.
Qed.

(** X8: on a store the program can reach, after a successful
    [insert_video_info] or [insert_bulk_video_info], [fetch_one] on a running
    engine of each returned id gives back exactly the record inserted under
    it, variants in their original order, as [ManagedVideo::new] builds it. *)
Theorem inserts_then_fetch_one_exact : forall fails db,
  wf db ->
  (forall vi id db', insert_video_info fails vi db = (Ok id, db') ->
     fetch_one no_fail id db' = (Ok (ManagedVideo_new id vi), db')) /\
  (forall vis ids db', insert_bulk_video_info fails vis db = (Ok ids, db') ->
     Forall2 (fun id vi => fetch_one no_fail id db' = (Ok (ManagedVideo_new id vi), db'))
       ids vis).
Proof.
  intros fails db Hwf. split.
  - intros vi id db' H. apply in_transaction_ok in H.
    exact (insert_record_fetch _ _ _ _ _ Hwf H).
  - intros vis ids db' H. apply in_transaction_ok in H.
    exact (insert_bulk_loop_fetch _ _ _ _ _ Hwf H).
Qed.

(** X9: two successful bulk inserts in a row have the effect of one bulk
    insert of the concatenated records: the same final store, and the two id
    lists concatenated. *)
Theorem insert_bulk_video_info_app : forall fails db vis1 vis2 ids1 ids2 db1 db2,
  insert_bulk_video_info fails vis1 db = (Ok ids1, db1) ->
  insert_bulk_video_info fails vis2 db1 = (Ok ids2, db2) ->
  insert_bulk_video_info fails (vis1 ++ vis2) db = (Ok (ids1 ++ ids2), db2).
Proof.
  intros fails db vis1 vis2 ids1 ids2 db1 db2 H1 H2.
  unfold insert_bulk_video_info, in_transaction, get_transaction, commit in *.
  destruct (fails Begin db) eqn:B1; [discriminate|].
  destruct (insert_bulk_loop fails vis1 db) as [[i1|e] t1] eqn:L1; [|discriminate].
  destruct (fails Commit t1) eqn:C1; [discriminate|].
  injection H1 as <- <-.
  destruct (fails Begin t1) eqn:B2; [discriminate|].
  destruct (insert_bulk_loop fails vis2 t1) as [[i2|e] t2] eqn:L2; [|discriminate].
  destruct (fails Commit t2) eqn:C2; [discriminate|].
  injection H2 as <- <-.
  rewrite insert_bulk_loop_app. unfold bind, ret. rewrite L1, L2, C2. reflexivity.
Qed.

(** X10: [insert_bulk_video_info] of a single record behaves as
    [insert_video_info] of it, whatever the engine does: the same store
    afterwards, the same error, or the one id as a one-element list. *)
Theorem insert_video_info_as_bulk : forall fails vi db,
  insert_bulk_video_info fails [vi] db =
  match insert_video_info fails vi db with
  | (Ok id, db') => (Ok [id], db')
  | (Err e, db') => (Err e, db')
  end.
Proof.
  intros fails vi db.
  unfold insert_bulk_video_info, insert_video_info, in_transaction, get_transaction, commit.
  destruct (fails Begin db); [reflexivity|].
  cbn [insert_bulk_loop]. unfold bind, ret.
  destruct (insert_record fails vi db) as [[id|e] tx]; [|reflexivity].
  destruct (fails Commit tx); reflexivity.
Qed.

(** X11: on a running engine and a store the program can reach, a chunk
    that is not empty, followed by the chunk of [m] entries that starts just
    past its last id in the same direction ([+ 1] for [GEQandASC], [- 1] for
    [LEQandDESC]), gives the chunk of [n + m] entries from the first
    [starting_id]: paging this way neither skips nor repeats a record. *)
Theorem fetch_chunk_of_next_page : forall st sid n m ord mvs1 mvs2,
  wf st ->
  fetch_chunk_of no_fail sid n ord st = (Ok mvs1, st) ->
  mvs1 <> [] ->
  fetch_chunk_of no_fail (next_starting_id ord (last (map mv_id mvs1) 0)) m ord st =
    (Ok mvs2, st) ->
  fetch_chunk_of no_fail sid (n + m) ord st = (Ok (mvs1 ++ mvs2), st).
Proof.
  intros st sid n m ord mvs1 mvs2 Hwf H1 Hne H2.
  pose proof (wf_in_i32 _ Hwf) as Hr.
  rewrite fetch_chunk_of_rows in H1, H2 by exact Hr.
  rewrite fetch_chunk_of_rows by exact Hr.
  injection H1 as <-.
  assert (HP : limit n (order_by (ord_le ord) (qualifying st sid ord)) <> []).
  { intros E. apply Hne. rewrite E. reflexivity. }
  set (d := mkInfoRow 0 EmptyString EmptyString EmptyString EmptyString None false).
  rewrite map_mv_id, (last_map_ne r_id _ d 0 HP) in H2.
  rewrite (ordered_rows_next st sid ord n d Hwf HP) in H2.
  injection H2 as <-.
  rewrite <- map_app. unfold limit. rewrite N2Nat.inj_add, firstn_add. reflexivity.
Qed.

(** ** Concrete runs of the extra properties *)

Lemma delete_video_info_keeps_others_witness :
  3 <> 5 /\
  fst (fetch_one no_fail 3 (snd (delete_video_info no_fail 5 test_store))) =
  fst (fetch_one no_fail 3 test_store).
Proof.
  split; [lia|]. apply (delete_video_info_keeps_others no_fail test_store 5 3). lia.
Defined.

Lemma fetch_chunk_of_nearest_first_witness :
  wf test_store /\
  exists mvs,
    fetch_chunk_of no_fail 2 2 GEQandASC test_store = (Ok mvs, test_store) /\
    List.length mvs =
      Nat.min (N.to_nat 2) (List.length (qualifying test_store 2 GEQandASC)) /\
    StronglySorted (ord_lt GEQandASC) (map mv_id mvs) /\
    Forall (fun mv => exists r, In r (qualifying test_store 2 GEQandASC) /\
                                mv = managed_of_row test_store r) mvs /\
    (forall r, In r (qualifying test_store 2 GEQandASC) -> ~ In (r_id r) (map mv_id mvs) ->
       Forall (fun mv => ord_lt GEQandASC (mv_id mv) (r_id r)) mvs).
Proof.
  split; [solve_wf|]. apply fetch_chunk_of_nearest_first. solve_wf.
Defined.

Lemma fetch_first_chunk_from_bottom_newest_witness :
  wf test_store_inserted /\
  exists mvs,
    fetch_first_chunk_from_bottom no_fail test_store_inserted =
      (Ok mvs, test_store_inserted) /\
    List.length mvs = Nat.min 20 (List.length (tbl_video_info test_store_inserted)) /\
    StronglySorted Z.gt (map mv_id mvs) /\
    Forall (fun mv => exists r, In r (tbl_video_info test_store_inserted) /\
                                mv = managed_of_row test_store_inserted r) mvs /\
    (forall r, In r (tbl_video_info test_store_inserted) -> ~ In (r_id r) (map mv_id mvs) ->
       Forall (fun mv => mv_id mv > r_id r) mvs).
Proof.
  split; [solve_wf|]. apply fetch_first_chunk_from_bottom_newest. solve_wf.
Defined.

Lemma fetch_one_is_chunk_of_one_witness :
  wf test_store /\ has_row test_store 3 /\
  exists mv, fetch_one no_fail 3 test_store = (Ok mv, test_store) /\
             fetch_chunk_of no_fail 3 1 LEQandDESC test_store = (Ok [mv], test_store).
Proof.
  assert (Hrow : has_row test_store 3).
  { unfold has_row, test_store. cbn [tbl_video_info]. eexists.
    split; [right; right; left; reflexivity|reflexivity]. }
  split; [solve_wf|]. split; [exact Hrow|].
  apply fetch_one_is_chunk_of_one; [solve_wf|exact Hrow].
Defined.

Lemma inserts_keep_existing_records_witness :
  has_row test_store_deleted 2 /\
  (forall vi id db', insert_video_info no_fail vi test_store_deleted = (Ok id, db') ->
     fetch_one no_fail 2 db' = (fst (fetch_one no_fail 2 test_store_deleted), db')) /\
  (forall vis ids db', insert_bulk_video_info no_fail vis test_store_deleted = (Ok ids, db') ->
     fetch_one no_fail 2 db' = (fst (fetch_one no_fail 2 test_store_deleted), db')).
Proof.
  assert (Hrow : has_row test_store_deleted 2).
  { unfold has_row, test_store_deleted. cbn [tbl_video_info]. eexists.
    split; [right; left; reflexivity|reflexivity]. }
  split; [exact Hrow|]. exact (inserts_keep_existing_records no_fail _ 2 Hrow).
Defined.

Lemma inserts_then_fetch_one_exact_witness :
  wf test_store_deleted /\
  (forall vi id db', insert_video_info no_fail vi test_store_deleted = (Ok id, db') ->
     fetch_one no_fail id db' = (Ok (ManagedVideo_new id vi), db')) /\
  (forall vis ids db', insert_bulk_video_info no_fail vis test_store_deleted = (Ok ids, db') ->
     Forall2 (fun id vi => fetch_one no_fail id db' = (Ok (ManagedVideo_new id vi), db'))
       ids vis).
Proof.
  split; [solve_wf|]. apply inserts_then_fetch_one_exact. solve_wf.
Defined.

Lemma insert_bulk_video_info_app_witness :
  insert_bulk_video_info no_fail (firstn 2 test_videos) empty_store =
    (Ok [1; 2], snd (insert_bulk_video_info no_fail (firstn 2 test_videos) empty_store)) /\
  insert_bulk_video_info no_fail (skipn 2 test_videos)
    (snd (insert_bulk_video_info no_fail (firstn 2 test_videos) empty_store)) =
    (Ok [3; 4; 5], test_store) /\
  insert_bulk_video_info no_fail (firstn 2 test_videos ++ skipn 2 test_videos) empty_store =
    (Ok ([1; 2] ++ [3; 4; 5]), test_store).
Proof.
  assert (H1 : insert_bulk_video_info no_fail (firstn 2 test_videos) empty_store =
    (Ok [1; 2], snd (insert_bulk_video_info no_fail (firstn 2 test_videos) empty_store)))
    by (vm_compute; reflexivity).
  assert (H2 : insert_bulk_video_info no_fail (skipn 2 test_videos)
    (snd (insert_bulk_video_info no_fail (firstn 2 test_videos) empty_store)) =
    (Ok [3; 4; 5], test_store)) by (vm_compute; reflexivity).
  split; [exact H1|]. split; [exact H2|].
  exact (insert_bulk_video_info_app no_fail _ _ _ _ _ _ _ H1 H2).
Defined.

Lemma fetch_chunk_of_next_page_witness :
  wf test_store /\
  fetch_chunk_of no_fail 5 2 LEQandDESC test_store =
    (Ok (map (managed_of_row test_store) (firstn 2 (rev (tbl_video_info test_store)))),
     test_store) /\
  map (managed_of_row test_store) (firstn 2 (rev (tbl_video_info test_store))) <> [] /\
  fetch_chunk_of no_fail
    (next_starting_id LEQandDESC
       (last (map mv_id (map (managed_of_row test_store)
                               (firstn 2 (rev (tbl_video_info test_store))))) 0))
    2 LEQandDESC test_store =
    (Ok (map (managed_of_row test_store)
           (firstn 2 (skipn 2 (rev (tbl_video_info test_store))))), test_store) /\
  fetch_chunk_of no_fail 5 (2 + 2) LEQandDESC test_store =
    (Ok (map (managed_of_row test_store) (firstn 2 (rev (tbl_video_info test_store))) ++
         map (managed_of_row test_store)
           (firstn 2 (skipn 2 (rev (tbl_video_info test_store))))), test_store).
Proof.
  assert (Hwf : wf test_store) by solve_wf.
  assert (H1 : fetch_chunk_of no_fail 5 2 LEQandDESC test_store =
    (Ok (map (managed_of_row test_store) (firstn 2 (rev (tbl_video_info test_store)))),
     test_store)) by (vm_compute; reflexivity).
  assert (Hne : map (managed_of_row test_store) (firstn 2 (rev (tbl_video_info test_store)))
                <> []) by (vm_compute; discriminate).
  assert (H2 : fetch_chunk_of no_fail
    (next_starting_id LEQandDESC
       (last (map mv_id (map (managed_of_row test_store)
                               (firstn 2 (rev (tbl_video_info test_store))))) 0))
    2 LEQandDESC test_store =
    (Ok (map (managed_of_row test_store)
           (firstn 2 (skipn 2 (rev (tbl_video_info test_store))))), test_store))
    by (vm_compute; reflexivity).
  split; [exact Hwf|]. split; [exact H1|]. split; [exact Hne|]. split; [exact H2|].
  exact (fetch_chunk_of_next_page test_store 5 2 2 LEQandDESC _ _ Hwf H1 Hne H2).
Defined.
